(** * Conway's Game of Life on a torus: a model of [game.py]

    The engine of [game.py] is three functions over numpy arrays:
    [initialize_game], [update_game_state] and the generator
    [generate_frames].  The numpy operations they call ([np.roll], the
    elementwise [+], [==], [&], [|] with their dtype promotion, and
    [np.random.choice]) are modelled here at the level of values; object
    identity, needed for the generator and for the question whether a
    transition touches its argument, is modelled by a store of array
    objects further down. *)

From stdpp Require Import base numbers list option gmap.

(** ** Python exceptions and fallible computations *)

Inductive exn :=
| ValueError   (* negative dimensions, operands that do not broadcast *)
| AxisError    (* axis out of bounds for the array *)
| OverflowError  (* a size that does not fit the index type *)
| MemoryError    (* an array that does not fit the memory *)
| NoObject.    (* a reference to no object of the store; Python has none *)

Inductive result (A : Type) :=
| Ok (a : A)
| Raise (e : exn).
Arguments Ok {A} a.
Arguments Raise {A} e.

Global Instance result_ret : MRet result := λ A, Ok.
Global Instance result_bind : MBind result := λ A B f r,
  match r with Ok a => f a | Raise e => Raise e end.
Global Instance result_fmap : FMap result := λ A B f r,
  match r with Ok a => Ok (f a) | Raise e => Raise e end.

(** A left fold whose step may fail or have effects: a [for] loop. *)
Fixpoint foldlM {M : Type → Type} `{!MBind M, !MRet M} {A B}
    (f : A → B → M A) (a : A) (l : list B) : M A :=
  match l with
  | [] => mret a
  | b :: l => a' ← f a b; foldlM f a' l
  end.

(** ** numpy arrays of rank two *)

Module Numpy.

(** The two dtypes that occur: [bool] and the default integer [int64].
    Axis 0 is the outer list, axis 1 the inner one. *)
Inductive ndarray :=
| BoolArray (rows : list (list bool))
| IntArray (rows : list (list Z)).

(** Two's complement wrap-around of [int64] arithmetic. *)
Definition int64_wrap (z : Z) : Z :=
  ((z + 2 ^ 63) `mod` 2 ^ 64 - 2 ^ 63)%Z.

(** The cells read as integers ([False] is 0, [True] is 1). *)
Definition as_int (a : ndarray) : list (list Z) :=
  match a with
  | BoolArray rows => map (map Z.b2z) rows
  | IntArray rows => rows
  end.

Definition at2 {A} (rows : list (list A)) (x y : nat) : option A :=
  rows !! x ≫= (.!! y).

(** [a[x, y]] as an integer, and its truth value. *)
Definition cell (a : ndarray) (x y : nat) : option Z := at2 (as_int a) x y.

Definition alive (a : ndarray) (x y : nat) : option bool :=
  (λ z, bool_decide (z ≠ 0%Z)) <$> cell a x y.

(** [rect w h rows]: [rows] is a [w] by [h] table, [shape == (w, h)]. *)
Definition rect {A} (w h : nat) (rows : list (list A)) : Prop :=
  length rows = w ∧ Forall (λ r, length r = h) rows.

Definition has_shape (a : ndarray) (w h : nat) : Prop :=
  match a with
  | BoolArray rows => rect w h rows
  | IntArray rows => rect w h rows
  end.

(** [np.roll] along one axis of length [n]: [offset = shift % (n or 1)];
    when the offset is not zero, [result[offset:] = a[:-offset]] and
    [result[:offset] = a[-offset:]]. *)
Definition roll_list {A} (shift : Z) (l : list A) : list A :=
  let n := Z.of_nat (length l) in
  let offset := (shift `mod` (if decide (n = 0%Z) then 1 else n))%Z in
  if decide (offset = 0%Z) then l
  else drop (Z.to_nat (n - offset)) l ++ take (Z.to_nat (n - offset)) l.

Definition np_roll (a : ndarray) (shift : Z) (axis : Z) : result ndarray :=
  if decide (axis = 0%Z ∨ axis = (-2)%Z) then
    Ok match a with
       | BoolArray rows => BoolArray (roll_list shift rows)
       | IntArray rows => IntArray (roll_list shift rows)
       end
  else if decide (axis = 1%Z ∨ axis = (-1)%Z) then
    Ok match a with
       | BoolArray rows => BoolArray (map (roll_list shift) rows)
       | IntArray rows => IntArray (map (roll_list shift) rows)
       end
  else Raise AxisError.

(** Elementwise binary operations.  numpy would broadcast an axis of
    length one; every operand below has the shape of [game_state], so the
    model raises on any difference of shape. *)
Fixpoint zip_withM {A B C} (f : A → B → result C)
    (l : list A) (k : list B) : result (list C) :=
  match l, k with
  | [], [] => Ok []
  | x :: l, y :: k => z ← f x y; zs ← zip_withM f l k; Ok (z :: zs)
  | _, _ => Raise ValueError
  end.

Definition elementwise {A B C} (f : A → B → C)
    (a : list (list A)) (b : list (list B)) : result (list (list C)) :=
  zip_withM (zip_withM (λ x y, Ok (f x y))) a b.

(** [a + b]: on two bool arrays [+] is the logical or; otherwise the
    result is [int64]. *)
Definition np_add (a b : ndarray) : result ndarray :=
  match a, b with
  | BoolArray r, BoolArray s => BoolArray <$> elementwise orb r s
  | _, _ => IntArray <$> elementwise (λ u v, int64_wrap (u + v)) (as_int a) (as_int b)
  end.

(** [z + a] for a Python int [z]: the result is [int64]. *)
Definition np_radd_scalar (z : Z) (a : ndarray) : ndarray :=
  IntArray (map (map (λ c, int64_wrap (z + c))) (as_int a)).

(** [a == z] for a Python int [z]: a bool array. *)
Definition np_eq_scalar (a : ndarray) (z : Z) : ndarray :=
  BoolArray (map (map (λ c, bool_decide (c = z))) (as_int a)).

(** [a & b] and [a | b]. *)
Definition np_and (a b : ndarray) : result ndarray :=
  match a, b with
  | BoolArray r, BoolArray s => BoolArray <$> elementwise andb r s
  | _, _ => IntArray <$> elementwise Z.land (as_int a) (as_int b)
  end.

Definition np_or (a b : ndarray) : result ndarray :=
  match a, b with
  | BoolArray r, BoolArray s => BoolArray <$> elementwise orb r s
  | _, _ => IntArray <$> elementwise Z.lor (as_int a) (as_int b)
  end.

(** [a & p] and [p | a] for a Python bool [p]: the dtype of [a] is kept. *)
Definition np_and_pybool (a : ndarray) (p : bool) : ndarray :=
  match a with
  | BoolArray rows => BoolArray (map (map (λ c, c && p)) rows)
  | IntArray rows => IntArray (map (map (λ c, Z.land c (Z.b2z p))) rows)
  end.

Definition np_ror_pybool (p : bool) (a : ndarray) : ndarray :=
  match a with
  | BoolArray rows => BoolArray (map (map (λ c, p || c)) rows)
  | IntArray rows => IntArray (map (map (λ c, Z.lor (Z.b2z p) c)) rows)
  end.

(** [np.random.choice([a0, a1], size=(w, h), p=[p0, p1])].

    Whether numpy can make a [w] by [h] array at all depends on the sizes
    and on the machine: [too_large w h] is the exception it raises when it
    cannot (a size beyond its index type, an array beyond the memory) and
    [None] when it can; it is a parameter of the model.  When numpy has
    no such objection, a negative dimension raises [ValueError]; otherwise
    every cell is [a0] or [a1], an [int64] array.  The generator's draws
    are the parameter [draw] (whether the second element is chosen for a
    cell); the probabilities only weigh the draws and are not modelled.

    A table is the list of its rows, so the array of shape [(0, h)] is the
    table without rows, whatever [h] is; no operation of the engine reads
    the shape of an array. *)
Definition np_random_choice (too_large : Z → Z → option exn)
    (a0 a1 : Z) (w h : Z) (draw : nat → nat → bool) : result ndarray :=
  match too_large w h with
  | Some e => Raise e
  | None =>
      if decide (w < 0 ∨ h < 0)%Z then Raise ValueError
      else
        Ok (IntArray
              (map (λ x, map (λ y, if draw x y then a1 else a0)
                             (seq 0 (Z.to_nat h)))
                   (seq 0 (Z.to_nat w))))
  end.

End Numpy.
Export Numpy.

(** ** The engine *)

(** The value of Python's [sum] while it runs: the int it starts from,
    then an array. *)
Inductive sum_value :=
| SumInt (z : Z)
| SumArray (a : ndarray).

Definition py_add (acc : sum_value) (item : ndarray) : result sum_value :=
  match acc with
  | SumInt z => Ok (SumArray (np_radd_scalar z item))
  | SumArray a => SumArray <$> np_add a item
  end.

(** [for i in (-1, 0, 1) for j in (-1, 0, 1) if (i != 0 or j != 0)] *)
Definition offsets : list (Z * Z) :=
  i ← [-1; 0; 1]%Z; j ← [-1; 0; 1]%Z;
  if decide (i ≠ 0%Z ∨ j ≠ 0%Z) then [(i, j)] else [].

(** [def initialize_game(width, height)], on a machine with the limits
    [too_large] and with the draws [draw]. *)
Definition initialize_game (too_large : Z → Z → option exn)
    (width height : Z) (draw : nat → nat → bool) : result ndarray :=
  np_random_choice too_large 0 1 width height draw.

(** [sum(np.roll(np.roll(game_state, i, 0), j, 1) for i ... for j ... if ...)]:
    the generator is consumed one shifted copy at a time. *)
Definition rolled (game_state : ndarray) (ij : Z * Z) : result ndarray :=
  r ← np_roll game_state ij.1 0; np_roll r ij.2 1.

Definition neighbors_count (game_state : ndarray) : result sum_value :=
  foldlM (λ acc ij, item ← rolled game_state ij; py_add acc item)
         (SumInt 0) offsets.

(** [def update_game_state(game_state)] *)
Definition update_game_state (game_state : ndarray) : result ndarray :=
  neighbors_count ← neighbors_count game_state;
  match neighbors_count with
  | SumArray nc =>
      survive ← np_and game_state (np_eq_scalar nc 2);
      np_or (np_eq_scalar nc 3) survive
  | SumInt z =>
      Ok (np_ror_pybool (bool_decide (z = 3%Z))
            (np_and_pybool game_state (bool_decide (z = 2%Z))))
  end.

(** ** Grid states *)

(** Every cell is a truth value: any bool array, an int array of 0s and
    1s (what [initialize_game] draws). *)
Definition binary (a : ndarray) : Prop :=
  match a with
  | BoolArray _ => True
  | IntArray rows => Forall (Forall (λ z, z = 0%Z ∨ z = 1%Z)) rows
  end.

Definition is_bool_array (a : ndarray) : bool :=
  match a with BoolArray _ => true | IntArray _ => false end.

Definition valid_state (w h : nat) (a : ndarray) : Prop :=
  0 < w ∧ 0 < h ∧ has_shape a w h ∧ binary a.

(** A table from the list of its live coordinates. *)
Definition board (w h : nat) (live : list (nat * nat)) : list (list bool) :=
  map (λ x, map (λ y, bool_decide ((x, y) ∈ live)) (seq 0 h)) (seq 0 w).

(** *** The neighbour count in the specification's words

    The 8 toroidally wrapped coordinates
    [((x + dx) mod width, (y + dy) mod height)] for [dx], [dy] in
    [{-1, 0, 1}], excluding [dx = dy = 0], and the number of them whose
    cell is alive. *)
Definition toroidal_neighbors (width height x y : nat) : list (nat * nat) :=
  dx ← [-1; 0; 1]%Z; dy ← [-1; 0; 1]%Z;
  if decide (dx = 0%Z ∧ dy = 0%Z) then []
  else [(Z.to_nat ((Z.of_nat x + dx) `mod` Z.of_nat width),
         Z.to_nat ((Z.of_nat y + dy) `mod` Z.of_nat height))].

Definition spec_neighbor_count (S : ndarray) (width height x y : nat) : nat :=
  length (filter (λ p, alive S p.1 p.2 = Some true)
                 (toroidal_neighbors width height x y)).

(** ** Array objects and references

    Python variables hold references.  Every numpy operation used by the
    engine reads its operands and returns a new array object; none writes
    into an existing one. *)

Module Store.

Definition loc := nat.

Definition M (A : Type) : Type :=
  gmap loc ndarray → result (A * gmap loc ndarray).

Global Instance M_ret : MRet M := λ A a σ, Ok (a, σ).
Global Instance M_bind : MBind M := λ A B f m σ,
  match m σ with
  | Ok (a, σ') => f a σ'
  | Raise e => Raise e
  end.

Definition lift {A} (r : result A) : M A := λ σ,
  match r with Ok a => Ok (a, σ) | Raise e => Raise e end.

Definition load (l : loc) : M ndarray := λ σ,
  match σ !! l with Some a => Ok (a, σ) | None => Raise NoObject end.

Definition alloc (a : ndarray) : M loc := λ σ,
  let l := fresh (dom σ) in Ok (l, <[l := a]> σ).

Definition roll_obj (a : loc) (shift axis : Z) : M loc :=
  va ← load a; r ← lift (np_roll va shift axis); alloc r.

Definition binop_obj (op : ndarray → ndarray → result ndarray) (a b : loc) : M loc :=
  va ← load a; vb ← load b; r ← lift (op va vb); alloc r.

Definition unop_obj (op : ndarray → ndarray) (a : loc) : M loc :=
  va ← load a; alloc (op va).

(** The value of [sum] while it runs, with the array by reference. *)
Inductive sum_ref :=
| RefInt (z : Z)
| RefArray (l : loc).

Definition py_add_obj (acc : sum_ref) (item : loc) : M sum_ref :=
  match acc with
  | RefInt z => r ← unop_obj (np_radd_scalar z) item; mret (RefArray r)
  | RefArray a => r ← binop_obj np_add a item; mret (RefArray r)
  end.

Definition rolled_obj (game_state : loc) (ij : Z * Z) : M loc :=
  r ← roll_obj game_state ij.1 0; roll_obj r ij.2 1.

Definition neighbors_count_obj (game_state : loc) : M sum_ref :=
  foldlM (λ acc ij, item ← rolled_obj game_state ij; py_add_obj acc item)
         (RefInt 0) offsets.

(** [update_game_state] on references: the local name [game_state] is
    rebound to the new array, the caller's object is only read. *)
Definition update_game_state_obj (game_state : loc) : M loc :=
  neighbors_count ← neighbors_count_obj game_state;
  match neighbors_count with
  | RefArray nc =>
      three ← unop_obj (λ a, np_eq_scalar a 3) nc;
      two ← unop_obj (λ a, np_eq_scalar a 2) nc;
      survive ← binop_obj np_and game_state two;
      binop_obj np_or three survive
  | RefInt z =>
      t ← unop_obj (λ a, np_and_pybool a (bool_decide (z = 2%Z))) game_state;
      unop_obj (np_ror_pybool (bool_decide (z = 3%Z))) t
  end.

(** [def generate_frames(game_state)]: a generator object is its local
    variable and the place where it is suspended. *)
Inductive gen_pc :=
| Created      (* not started *)
| AtYield.     (* suspended at [yield game_state] *)

Record generator := Generator { gen_pc_of : gen_pc; gen_game_state : loc }.

Definition generate_frames (game_state : loc) : generator :=
  Generator Created game_state.

(** [next(gen)]: run to the next [yield]. *)
Definition next (g : generator) : M (loc * generator) :=
  match gen_pc_of g with
  | Created =>
      mret (gen_game_state g, Generator AtYield (gen_game_state g))
  | AtYield =>
      game_state ← update_game_state_obj (gen_game_state g);
      mret (game_state, Generator AtYield game_state)
  end.

(** The first [n] frames pulled from a generator. *)
Fixpoint take_frames (n : nat) (g : generator) : M (list loc) :=
  match n with
  | 0 => mret []
  | S n =>
      fg ← next g;
      frames ← take_frames n fg.2;
      mret (fg.1 :: frames)
  end.

End Store.

(** ** What the renderer reads *)

(** [a.flatten()]: the cells in row-major order. *)
Definition flatten {A} (rows : list (list A)) : list A := concat rows.

(** [a.shape] of a table; one without rows has kept no row length. *)
Definition shape (a : ndarray) : nat * nat :=
  match a with
  | BoolArray rows => (length rows, from_option length 0 (head rows))
  | IntArray rows => (length rows, from_option length 0 (head rows))
  end.

(** The coordinates of a [w] by [h] array in row-major order. *)
Definition coords (w h : nat) : list (nat * nat) :=
  x ← seq 0 w; y ← seq 0 h; [(x, y)].

(** [np.where(a)]: the coordinates of the non-zero cells in row-major
    order, as the array of their first and the array of their second
    indices. *)
Definition nonzero_coords (a : ndarray) : list (nat * nat) :=
  filter (λ p, alive a p.1 p.2 = Some true) (coords (shape a).1 (shape a).2).

Definition np_where (a : ndarray) : list nat * list nat :=
  ((nonzero_coords a).*1, (nonzero_coords a).*2).

Inductive render_exn :=
| NumpyError (e : exn)
| AttributeError.   (* a Python float has no [flatten] *)

Inductive outcome (A : Type) :=
| Returns (a : A)
| Raises (e : render_exn).
Arguments Returns {A} a.
Arguments Raises {A} e.

Section rendering.
Context {color : Type}.

(** [shade c] stands for [cmap(c / 8)], the colour matplotlib's
    ['inferno'] map gives to the count [c] rescaled by the maximum of 8
    neighbours. *)
Context (shade : Z → color).

(** [def get_updated_colors(game_state)] *)
Definition get_updated_colors (game_state : ndarray) : outcome (list color) :=
  match neighbors_count game_state with
  | Raise e => Raises (NumpyError e)
  | Ok (SumInt z) => Raises AttributeError
  | Ok (SumArray nc) =>
      let colors := shade <$> flatten (as_int nc) in
      Returns
        ((filter (λ ci : color * Z, ci.2 ≠ 0%Z)
                 (zip colors (flatten (as_int game_state)))).*1)
  end.

(** The arguments [update(frame)] passes to [ax.scatter]: the two index
    arrays of [np.where(frame)] and the colours. *)
Definition scatter_args (frame : ndarray)
    : outcome (list nat * list nat * list color) :=
  match get_updated_colors frame with
  | Returns colors => Returns ((np_where frame).1, (np_where frame).2, colors)
  | Raises e => Raises e
  end.

End rendering.

(** The cell that the rule writes for a cell [s] with count [c]. *)
Definition rule_cell (s c : Z) : Z :=
  Z.lor (Z.b2z (bool_decide (c = 3%Z)))
        (Z.land s (Z.b2z (bool_decide (c = 2%Z)))).

(** ** Closed forms used in the proofs

    On a table of a given shape no operation of [update_game_state] can
    raise, and the result is given by total list functions. *)

Definition roll2 {A} (ij : Z * Z) (rows : list (list A)) : list (list A) :=
  map (roll_list ij.2) (roll_list ij.1 rows).

Definition roll2_array (g : ndarray) (ij : Z * Z) : ndarray :=
  match g with
  | BoolArray rows => BoolArray (roll2 ij rows)
  | IntArray rows => IntArray (roll2 ij rows)
  end.

Definition zip2 {A B C} (f : A → B → C)
    (a : list (list A)) (b : list (list B)) : list (list C) :=
  zip_with (zip_with f) a b.

Definition sum_tables (g : ndarray) (acc : list (list Z))
    (offs : list (Z * Z)) : list (list Z) :=
  foldl (λ acc ij, zip2 (λ u v, int64_wrap (u + v)) acc (as_int (roll2_array g ij)))
        acc offs.

Definition count_table (g : ndarray) : list (list Z) :=
  sum_tables g (as_int (np_radd_scalar 0 (roll2_array g (-1, -1)%Z)))
             (tail offsets).

Definition next_array (g : ndarray) : ndarray :=
  let nc := IntArray (count_table g) in
  match g with
  | BoolArray rows =>
      BoolArray (zip2 orb (map (map (λ c, bool_decide (c = 3%Z))) (count_table g))
                   (zip2 andb rows (map (map (λ c, bool_decide (c = 2%Z))) (count_table g))))
  | IntArray rows =>
      IntArray (zip2 Z.lor (as_int (np_eq_scalar nc 3))
                  (zip2 Z.land rows (as_int (np_eq_scalar nc 2))))
  end.

Definition Zsum (l : list Z) : Z := foldr Z.add 0%Z l.

(** The cell that the copy shifted by [(i, j)] brings to [(x, y)]. *)
Definition shifted_cell (g : ndarray) (w h x y : nat) (ij : Z * Z) : Z :=
  default 0%Z
    (cell g (Z.to_nat ((Z.of_nat x - ij.1) `mod` Z.of_nat w))
            (Z.to_nat ((Z.of_nat y - ij.2) `mod` Z.of_nat h))).

(** ** Relating the store to values *)

(** The running value of [sum] by reference and by value. *)
Definition sum_rel (σ : gmap Store.loc ndarray)
    (r : Store.sum_ref) (v : sum_value) : Prop :=
  match r, v with
  | Store.RefInt z, SumInt z' => z = z'
  | Store.RefArray l, SumArray a => σ !! l = Some a
  | _, _ => False
  end.

(** Each frame of [frames] holds [update_game_state] of the frame before
    it, starting after [prev]. *)
Fixpoint chain (σ : gmap Store.loc ndarray) (prev : Store.loc)
    (frames : list Store.loc) : Prop :=
  match frames with
  | [] => True
  | f :: frames =>
      (∃ Sp Sf, σ !! prev = Some Sp ∧ σ !! f = Some Sf ∧
                update_game_state Sp = Ok Sf) ∧
      chain σ f frames
  end.

(** Stores only grow: goals about a later store are reduced to an earlier
    one along the inclusions at hand. *)
Ltac store_mono :=
  solve [ repeat first
    [ eassumption
    | reflexivity
    | match goal with
      | H : ?σ1 ⊆ ?σ2 |- _ ⊆ ?σ2 => etrans; [|exact H]
      | H : ?σ1 ⊆ ?σ2 |- ?σ2 !! _ = Some _ => eapply lookup_weaken; [|exact H]
      | H : ?σ1 ⊆ ?σ2 |- ?σ1 !! _ = None => eapply lookup_weaken_None; [|exact H]
      end ] ].

(** * Properties *)

Lemma offsets_eq :
  offsets = [(-1, -1); (-1, 0); (-1, 1); (0, -1); (0, 1); (1, -1); (1, 0); (1, 1)]%Z.
Proof. reflexivity. Qed.

Lemma foldlM_cons {M : Type → Type} `{!MBind M, !MRet M} {A B}
    (f : A → B → M A) (a : A) (b : B) (l : list B) :
  foldlM f a (b :: l) = (a' ← f a b; foldlM f a' l).
Proof. reflexivity. Qed.

Lemma bind_Ok {A B} (f : A → result B) (a : A) : (Ok a ≫= f) = f a.
Proof. reflexivity. Qed.

Lemma fmap_Ok {A B} (f : A → B) (a : A) : f <$> Ok a = Ok (f a).
Proof. reflexivity. Qed.

(** ** Lists rolled along their axis *)

Section roll.
Context {A : Type}.
Implicit Types (l : list A) (shift : Z).

Lemma roll_list_length shift l : length (roll_list shift l) = length l.
Proof.
  unfold roll_list. case_decide; [done|].
  rewrite length_app, length_drop, length_take. lia.
Qed.

(** [np.roll(a, shift)[k] = a[(k - shift) % n]]. *)
Lemma roll_list_lookup shift l k :
  k < length l →
  roll_list shift l !! k
  = l !! Z.to_nat ((Z.of_nat k - shift) `mod` Z.of_nat (length l)).
Proof.
  intros Hk. unfold roll_list.
  set (n := Z.of_nat (length l)).
  assert (Hn : (0 < n)%Z) by (subst n; lia).
  rewrite (decide_False (P := n = 0%Z)) by lia.
  assert (Ho := Z.mod_pos_bound shift n Hn).
  rewrite <- (Zminus_mod_idemp_r (Z.of_nat k) shift n).
  set (o := (shift `mod` n)%Z) in *.
  case_decide as Hz.
  - rewrite Hz, Z.sub_0_r, Z.mod_small by (subst n; lia).
    by rewrite Nat2Z.id.
  - destruct (decide (Z.of_nat k < o)%Z) as [Hlt|Hge].
    + rewrite lookup_app_l by (rewrite length_drop; subst n; lia).
      rewrite lookup_drop. f_equal.
      replace ((Z.of_nat k - o) `mod` n)%Z with (Z.of_nat k - o + n)%Z.
      * subst n. lia.
      * symmetry. rewrite <- (Z_mod_plus_full _ 1 n).
        rewrite Z.mod_small; lia.
    + rewrite lookup_app_r by (rewrite length_drop; subst n; lia).
      rewrite length_drop, lookup_take_lt by (subst n; lia).
      f_equal. rewrite Z.mod_small by lia. subst n. lia.
Qed.

Lemma roll_list_Forall (P : A → Prop) shift l :
  Forall P l → Forall P (roll_list shift l).
Proof.
  intros H. unfold roll_list. case_decide; [done|].
  apply Forall_app. split; [by apply Forall_drop | by apply Forall_take].
Qed.
End roll.

(** ** Tables *)

Section tables.
Context {A : Type}.
Implicit Types (rows : list (list A)) (w h x y : nat).

Lemma rect_roll0 w h shift rows :
  rect w h rows → rect w h (roll_list shift rows).
Proof.
  intros [Hw Hh]. split; [by rewrite roll_list_length|].
  by apply roll_list_Forall.
Qed.

Lemma rect_roll1 w h shift rows :
  rect w h rows → rect w h (map (roll_list shift) rows).
Proof.
  intros [Hw Hh]. split; [by rewrite length_map|].
  apply Forall_fmap. eapply Forall_impl; [exact Hh|].
  intros r Hr. simpl. by rewrite roll_list_length.
Qed.

Lemma rect_map {B} (f : A → B) w h rows :
  rect w h rows → rect w h (map (map f) rows).
Proof.
  intros [Hw Hh]. split; [by rewrite length_map|].
  apply Forall_fmap. eapply Forall_impl; [exact Hh|].
  intros r Hr. simpl. by rewrite length_map.
Qed.

Lemma rect_row w h rows x r :
  rect w h rows → rows !! x = Some r → length r = h.
Proof.
  intros [_ Hh] Hx. eapply (Forall_lookup_1 _ _ _ _ Hh Hx).
Qed.

Lemma at2_is_Some w h rows x y :
  rect w h rows → x < w → y < h → is_Some (at2 rows x y).
Proof.
  intros Hr Hx Hy. unfold at2.
  destruct (lookup_lt_is_Some_2 rows x) as [r Hrow]; [destruct Hr; lia|].
  rewrite Hrow. simpl. apply lookup_lt_is_Some_2.
  rewrite (rect_row _ _ _ _ _ Hr Hrow). done.
Qed.

Lemma at2_roll0 w h shift rows x y :
  rect w h rows → x < w →
  at2 (roll_list shift rows) x y
  = at2 rows (Z.to_nat ((Z.of_nat x - shift) `mod` Z.of_nat w)) y.
Proof.
  intros [Hw _] Hx. unfold at2.
  rewrite roll_list_lookup by lia. by rewrite Hw.
Qed.

Lemma at2_roll1 w h shift rows x y :
  rect w h rows → x < w → y < h →
  at2 (map (roll_list shift) rows) x y
  = at2 rows x (Z.to_nat ((Z.of_nat y - shift) `mod` Z.of_nat h)).
Proof.
  intros Hr Hx Hy. unfold at2. rewrite list_lookup_fmap.
  destruct (rows !! x) as [r|] eqn:Hrow; [|done]. simpl.
  rewrite roll_list_lookup by (rewrite (rect_row _ _ _ _ _ Hr Hrow); done).
  by rewrite (rect_row _ _ _ _ _ Hr Hrow).
Qed.

Lemma at2_map {B} (f : A → B) rows x y :
  at2 (map (map f) rows) x y = f <$> at2 rows x y.
Proof.
  unfold at2. rewrite list_lookup_fmap.
  destruct (rows !! x) as [r|]; [|done]. simpl. apply list_lookup_fmap.
Qed.
End tables.

Section zipping.
Context {A B C : Type} (f : A → B → C).

Lemma zip_withM_pure (l : list A) (k : list B) :
  length l = length k →
  zip_withM (λ x y, Ok (f x y)) l k = Ok (zip_with f l k).
Proof.
  revert k. induction l as [|x l IH]; intros [|y k] Hlen; simplify_eq/=; [done|].
  by rewrite IH.
Qed.

Lemma elementwise_rect w h (a : list (list A)) (b : list (list B)) :
  rect w h a → rect w h b → elementwise f a b = Ok (zip2 f a b).
Proof.
  unfold elementwise, zip2. intros [Hwa Hha] [Hwb Hhb].
  assert (Hlen : length a = length b) by congruence. clear Hwa Hwb.
  revert b Hlen Hhb. induction Hha as [|r a Hr Ha IH];
    intros [|s b] Hlen Hhb; simplify_eq/=; [done|].
  apply Forall_cons in Hhb as [Hs Hb].
  rewrite zip_withM_pure by congruence. simpl.
  by rewrite IH.
Qed.

Lemma rect_zip2 w h (a : list (list A)) (b : list (list B)) :
  rect w h a → rect w h b → rect w h (zip2 f a b).
Proof.
  unfold zip2. intros [Hwa Hha] [Hwb Hhb]. split.
  - rewrite length_zip_with. lia.
  - apply Forall_lookup. intros i r. rewrite lookup_zip_with.
    intros Hi. apply bind_Some in Hi as (ra & Hra & Hi).
    apply bind_Some in Hi as (rb & Hrb & Hi). simplify_eq.
    rewrite length_zip_with.
    rewrite (Forall_lookup_1 _ _ _ _ Hha Hra).
    rewrite (Forall_lookup_1 _ _ _ _ Hhb Hrb). lia.
Qed.

Lemma at2_zip2 (a : list (list A)) (b : list (list B)) x y :
  at2 (zip2 f a b) x y = (u ← at2 a x y; v ← at2 b x y; Some (f u v)).
Proof.
  unfold at2, zip2. rewrite lookup_zip_with.
  destruct (a !! x) as [ra|]; [|done]. simpl.
  destruct (b !! x) as [rb|]; simpl.
  - apply lookup_zip_with.
  - by destruct (ra !! y).
Qed.
End zipping.

(** ** The array operations on a table of known shape *)

Lemma has_shape_as_int a w h : has_shape a w h → rect w h (as_int a).
Proof. destruct a; simpl; [apply rect_map | done]. Qed.

Lemma rect_roll2 {A} w h ij (rows : list (list A)) :
  rect w h rows → rect w h (roll2 ij rows).
Proof. intros H. unfold roll2. by apply rect_roll1, rect_roll0. Qed.

Lemma at2_roll2 {A} w h ij (rows : list (list A)) x y :
  rect w h rows → x < w → y < h →
  at2 (roll2 ij rows) x y
  = at2 rows (Z.to_nat ((Z.of_nat x - ij.1) `mod` Z.of_nat w))
             (Z.to_nat ((Z.of_nat y - ij.2) `mod` Z.of_nat h)).
Proof.
  intros Hr Hx Hy. unfold roll2.
  rewrite (at2_roll1 w h) by (done || by apply rect_roll0).
  by rewrite (at2_roll0 w h).
Qed.

Lemma rolled_eq g ij : rolled g ij = Ok (roll2_array g ij).
Proof. by destruct g. Qed.

Lemma has_shape_roll2 g w h ij :
  has_shape g w h → has_shape (roll2_array g ij) w h.
Proof. destruct g; simpl; apply rect_roll2. Qed.

Lemma is_bool_roll2 g ij : is_bool_array (roll2_array g ij) = is_bool_array g.
Proof. by destruct g. Qed.

Lemma wrapped_index_lt (k : nat) (s : Z) (n : nat) :
  0 < n → Z.to_nat ((Z.of_nat k - s) `mod` Z.of_nat n) < n.
Proof.
  intros Hn. pose proof (Z.mod_pos_bound (Z.of_nat k - s) (Z.of_nat n)). lia.
Qed.

Lemma cell_roll2 g w h ij x y :
  has_shape g w h → x < w → y < h →
  cell (roll2_array g ij) x y = Some (shifted_cell g w h x y ij).
Proof.
  intros Hg Hx Hy. unfold shifted_cell.
  destruct (at2_is_Some w h (as_int g)
              (Z.to_nat ((Z.of_nat x - ij.1) `mod` Z.of_nat w))
              (Z.to_nat ((Z.of_nat y - ij.2) `mod` Z.of_nat h)))
    as [c Hc]; [by apply has_shape_as_int | apply wrapped_index_lt; lia
               | apply wrapped_index_lt; lia |].
  unfold cell in *. rewrite Hc. simpl. rewrite <- Hc.
  destruct g as [rows|rows]; simpl in *.
  - rewrite !at2_map. by rewrite (at2_roll2 w h).
  - by rewrite (at2_roll2 w h).
Qed.

Lemma binary_roll2 g ij : binary g → binary (roll2_array g ij).
Proof.
  destruct g as [rows|rows]; simpl; [done|]. intros H. unfold roll2.
  apply Forall_fmap. apply roll_list_Forall.
  eapply Forall_impl; [exact H|]. intros r Hr. simpl.
  by apply roll_list_Forall.
Qed.

Lemma binary_cell g x y c :
  binary g → cell g x y = Some c → c = 0%Z ∨ c = 1%Z.
Proof.
  unfold cell, at2. destruct g as [rows|rows]; simpl; intros Hb Hc.
  - apply bind_Some in Hc as (r & Hr & Hc).
    rewrite list_lookup_fmap in Hr. apply fmap_Some in Hr as (r' & _ & ->).
    rewrite list_lookup_fmap in Hc. apply fmap_Some in Hc as ([] & _ & ->); auto.
  - apply bind_Some in Hc as (r & Hr & Hc).
    pose proof (Forall_lookup_1 _ _ _ _ Hb Hr) as Hrow.
    apply (Forall_lookup_1 _ _ _ _ Hrow Hc).
Qed.

Lemma int64_wrap_small z : (- 2 ^ 63 ≤ z < 2 ^ 63)%Z → int64_wrap z = z.
Proof. intros Hz. unfold int64_wrap. rewrite Z.mod_small; lia. Qed.

(** *** The sum of the shifted copies *)

Section summing.
Context (g : ndarray) (w h : nat) (Hg : has_shape g w h).

Lemma rect_sum_tables offs acc :
  rect w h acc → rect w h (sum_tables g acc offs).
Proof.
  revert acc. induction offs as [|ij offs IH]; intros acc Hacc; [done|].
  simpl. apply IH. apply rect_zip2; [done|].
  by apply has_shape_as_int, has_shape_roll2.
Qed.

Lemma foldlM_sum_tables offs acc :
  rect w h acc →
  foldlM (λ acc ij, item ← rolled g ij; py_add acc item)
         (SumArray (IntArray acc)) offs
  = Ok (SumArray (IntArray (sum_tables g acc offs))).
Proof.
  revert acc. induction offs as [|ij offs IH]; intros acc Hacc; [done|].
  assert (Hitem : rect w h (as_int (roll2_array g ij)))
    by by apply has_shape_as_int, has_shape_roll2.
  assert (Hadd : np_add (IntArray acc) (roll2_array g ij)
                 = Ok (IntArray (zip2 (λ u v, int64_wrap (u + v)) acc
                                      (as_int (roll2_array g ij))))).
  { unfold np_add. destruct (roll2_array g ij); simpl in *;
      by rewrite (elementwise_rect _ w h). }
  rewrite foldlM_cons, rolled_eq, bind_Ok.
  change (py_add (SumArray (IntArray acc)) (roll2_array g ij))
    with (SumArray <$> np_add (IntArray acc) (roll2_array g ij)).
  rewrite Hadd, fmap_Ok, bind_Ok.
  apply IH. by apply rect_zip2.
Qed.

Lemma rect_count_table : rect w h (count_table g).
Proof.
  apply rect_sum_tables. simpl. apply rect_map.
  by apply has_shape_as_int, has_shape_roll2.
Qed.

Lemma neighbors_count_closed :
  neighbors_count g = Ok (SumArray (IntArray (count_table g))).
Proof.
  unfold neighbors_count. rewrite offsets_eq, foldlM_cons, rolled_eq, bind_Ok.
  change (py_add (SumInt 0) ?a) with (Ok (SumArray (np_radd_scalar 0 a))).
  rewrite bind_Ok.
  apply (foldlM_sum_tables (tail offsets)
           (as_int (np_radd_scalar 0 (roll2_array g (-1, -1)%Z)))).
  simpl. apply rect_map. by apply has_shape_as_int, has_shape_roll2.
Qed.

Lemma has_shape_next_array : has_shape (next_array g) w h.
Proof.
  pose proof rect_count_table as Hnc.
  destruct g as [rows|rows]; unfold next_array, has_shape in *.
  - apply rect_zip2; [by apply rect_map|].
    apply rect_zip2; [done | by apply rect_map].
  - unfold np_eq_scalar, as_int.
    apply rect_zip2; [by apply rect_map, rect_map|].
    apply rect_zip2; [done | by apply rect_map, rect_map].
Qed.

Lemma update_game_state_closed : update_game_state g = Ok (next_array g).
Proof.
  unfold update_game_state. rewrite neighbors_count_closed, bind_Ok.
  pose proof rect_count_table as Hnc.
  destruct g as [rows|rows]; unfold next_array, has_shape in *;
    unfold np_eq_scalar, np_and, np_or, as_int.
  - rewrite (elementwise_rect _ w h) by (done || by apply rect_map).
    rewrite fmap_Ok, bind_Ok.
    rewrite (elementwise_rect _ w h); [done | by apply rect_map |].
    apply rect_zip2; [done | by apply rect_map].
  - rewrite (elementwise_rect _ w h) by (done || by apply rect_map, rect_map).
    rewrite fmap_Ok, bind_Ok.
    rewrite (elementwise_rect _ w h); [done | by apply rect_map, rect_map |].
    apply rect_zip2; [done | by apply rect_map, rect_map].
Qed.
End summing.

(** *** Cell by cell, on a grid of truth values *)

Section counting.
Context (g : ndarray) (w h : nat).
Context (Hg : has_shape g w h) (Hb : binary g).

Lemma shifted_cell_binary x y ij :
  shifted_cell g w h x y ij = 0%Z ∨ shifted_cell g w h x y ij = 1%Z.
Proof.
  unfold shifted_cell.
  destruct (cell g _ _) as [c|] eqn:Hc; simpl; [|by left].
  by eapply binary_cell.
Qed.

Lemma sum_tables_at offs : ∀ acc (n : Z),
  rect w h acc →
  (∀ x y c, at2 acc x y = Some c → (0 ≤ c ≤ n)%Z) →
  (n + Z.of_nat (length offs) < 2 ^ 63)%Z →
  ∀ x y, x < w → y < h →
    ∃ c, at2 acc x y = Some c ∧
         at2 (sum_tables g acc offs) x y
         = Some (c + Zsum (map (shifted_cell g w h x y) offs))%Z.
Proof.
  induction offs as [|ij offs IH]; intros acc n Hacc Hbound Hn x y Hx Hy.
  - destruct (at2_is_Some w h acc x y Hacc Hx Hy) as [c Hc].
    exists c. split; [done|]. simpl. rewrite Hc. f_equal. lia.
  - destruct (at2_is_Some w h acc x y Hacc Hx Hy) as [c Hc].
    exists c. split; [done|]. simpl.
    set (acc' := zip2 (λ u v, int64_wrap (u + v)) acc (as_int (roll2_array g ij))).
    assert (Hitem : rect w h (as_int (roll2_array g ij)))
      by by apply has_shape_as_int, has_shape_roll2.
    destruct (IH acc' (n + 1)%Z) with (x := x) (y := y) as (c' & Hc' & Hsum);
      [by apply rect_zip2 | | simpl in Hn; lia | done | done |].
    + intros x' y' d Hd. subst acc'. rewrite at2_zip2 in Hd.
      apply bind_Some in Hd as (u & Hu & Hd).
      apply bind_Some in Hd as (v & Hv & Hd). simplify_eq.
      apply Hbound in Hu.
      apply (binary_cell (roll2_array g ij)) in Hv; [|by apply binary_roll2].
      simpl in Hn. rewrite int64_wrap_small by lia. lia.
    + rewrite Hsum. f_equal. subst acc'. rewrite at2_zip2 in Hc'.
      rewrite Hc in Hc'. simpl in Hc'.
      pose proof (cell_roll2 g w h ij x y Hg Hx Hy) as Hv.
      unfold cell in Hv. rewrite Hv in Hc'. simpl in Hc'. simplify_eq.
      apply Hbound in Hc. simpl in Hn.
      destruct (shifted_cell_binary x y ij) as [-> | ->];
        rewrite int64_wrap_small by lia; lia.
Qed.

(** The count at [(x, y)] is the sum, over the eight shifts, of the
    cells the shifted copies bring there. *)
Lemma count_table_at x y :
  x < w → y < h →
  at2 (count_table g) x y
  = Some (Zsum (map (shifted_cell g w h x y) offsets)).
Proof.
  intros Hx Hy. unfold count_table.
  set (acc := as_int (np_radd_scalar 0 (roll2_array g (-1, -1)%Z))).
  assert (Hacc : rect w h acc).
  { subst acc. simpl. apply rect_map.
    by apply has_shape_as_int, has_shape_roll2. }
  assert (Hcell : ∀ x y, at2 acc x y
            = (λ c, int64_wrap (0 + c)) <$> cell (roll2_array g (-1, -1)%Z) x y).
  { intros x' y'. subst acc. simpl. by rewrite at2_map. }
  destruct (sum_tables_at (tail offsets) acc 1) with (x := x) (y := y)
    as (c & Hc & Hsum); [done | | simpl; lia | done | done |].
  - intros x' y' c. rewrite Hcell. intros Hc.
    apply fmap_Some in Hc as (c' & Hc' & ->).
    apply (binary_cell (roll2_array g (-1, -1)%Z)) in Hc';
      [|by apply binary_roll2].
    rewrite int64_wrap_small by lia. lia.
  - rewrite Hsum. f_equal. rewrite Hcell in Hc.
    rewrite (cell_roll2 g w h) in Hc by done. simpl in Hc. simplify_eq.
    rewrite offsets_eq. simpl.
    destruct (shifted_cell_binary x y (-1, -1)%Z) as [-> | ->];
      rewrite int64_wrap_small by lia; lia.
Qed.

Lemma count_table_bounds x y c :
  x < w → y < h → at2 (count_table g) x y = Some c → (0 ≤ c ≤ 8)%Z.
Proof.
  intros Hx Hy. rewrite count_table_at by done. intros Hc.
  apply (inj Some) in Hc. subst c. rewrite offsets_eq. simpl.
  pose proof (shifted_cell_binary x y (-1, -1)%Z).
  pose proof (shifted_cell_binary x y (-1, 0)%Z).
  pose proof (shifted_cell_binary x y (-1, 1)%Z).
  pose proof (shifted_cell_binary x y (0, -1)%Z).
  pose proof (shifted_cell_binary x y (0, 1)%Z).
  pose proof (shifted_cell_binary x y (1, -1)%Z).
  pose proof (shifted_cell_binary x y (1, 0)%Z).
  pose proof (shifted_cell_binary x y (1, 1)%Z).
  lia.
Qed.
End counting.

(** ** The rule *)

Lemma valid_state_shape w h S : valid_state w h S → has_shape S w h.
Proof. by intros (_ & _ & ? & _). Qed.

Lemma valid_state_binary w h S : valid_state w h S → binary S.
Proof. by intros (_ & _ & _ & ?). Qed.

Lemma next_array_alive w h S x y c a :
  has_shape S w h → binary S →
  at2 (count_table S) x y = Some c →
  alive S x y = Some a →
  alive (next_array S) x y
  = Some (bool_decide (c = 3%Z) || (a && bool_decide (c = 2%Z))).
Proof.
  intros HS Hb Hc Ha. unfold alive in *.
  apply fmap_Some in Ha as (s & Hs & ->).
  pose proof (binary_cell S x y s Hb Hs) as Hs01.
  unfold cell in *.
  destruct S as [rows|rows]; unfold next_array, np_eq_scalar, as_int in *.
  - rewrite at2_map in Hs. apply fmap_Some in Hs as (b & Hrow & ->).
    rewrite at2_map, at2_zip2, at2_map, at2_zip2, at2_map, Hc, Hrow. simpl.
    f_equal. by destruct b, (bool_decide (c = 3%Z)), (bool_decide (c = 2%Z)).
  - rewrite at2_zip2, !at2_map, at2_zip2, !at2_map, Hc, Hs. simpl.
    f_equal.
    destruct Hs01 as [-> | ->];
      by destruct (bool_decide (c = 3%Z)), (bool_decide (c = 2%Z)).
Qed.

(** C1. For a valid grid state [S] and a coordinate [(x, y)] of it, the
    cell of [update_game_state S] at [(x, y)] is alive exactly when the
    neighbour count of [S] there is 3, or the cell of [S] is alive and the
    count is 2. *)
Theorem C1_rule_identity w h S x y :
  valid_state w h S → x < w → y < h →
  ∃ S' nc c a,
    update_game_state S = Ok S' ∧
    neighbors_count S = Ok (SumArray nc) ∧
    cell nc x y = Some c ∧
    alive S x y = Some a ∧
    alive S' x y = Some (bool_decide (c = 3%Z) || (a && bool_decide (c = 2%Z))).
Proof.
  intros HS Hx Hy.
  pose proof (valid_state_shape _ _ _ HS) as Hshape.
  pose proof (valid_state_binary _ _ _ HS) as Hb.
  destruct (at2_is_Some w h (count_table S) x y) as [c Hc];
    [by apply rect_count_table | done | done |].
  destruct (at2_is_Some w h (as_int S) x y) as [s Hs];
    [by apply has_shape_as_int | done | done |].
  exists (next_array S), (IntArray (count_table S)), c, (bool_decide (s ≠ 0%Z)).
  assert (Ha : alive S x y = Some (bool_decide (s ≠ 0%Z))).
  { unfold alive, cell. by rewrite Hs. }
  split_and!; [by eapply update_game_state_closed
              | by eapply neighbors_count_closed | done | done |].
  by eapply next_array_alive.
Qed.

Lemma C1_rule_identity_witness :
  ∃ S' nc c a,
    update_game_state (BoolArray (board 3 3 [(0, 0); (1, 1); (2, 2)])) = Ok S' ∧
    neighbors_count (BoolArray (board 3 3 [(0, 0); (1, 1); (2, 2)])) = Ok (SumArray nc) ∧
    cell nc 1 1 = Some c ∧
    alive (BoolArray (board 3 3 [(0, 0); (1, 1); (2, 2)])) 1 1 = Some a ∧
    alive S' 1 1 = Some (bool_decide (c = 3%Z) || (a && bool_decide (c = 2%Z))).
Proof.
  apply (C1_rule_identity 3 3); [|lia|lia].
  split_and!; [lia | lia | | done].
  split; [done|]. repeat constructor.
Defined.

(** ** The count against the direct enumeration *)

Lemma toroidal_neighbors_eq w h x y :
  toroidal_neighbors w h x y
  = (λ d : Z * Z, (Z.to_nat ((Z.of_nat x + d.1) `mod` Z.of_nat w),
                   Z.to_nat ((Z.of_nat y + d.2) `mod` Z.of_nat h)))
    <$> [(-1, -1); (-1, 0); (-1, 1); (0, -1); (0, 1); (1, -1); (1, 0); (1, 1)]%Z.
Proof. reflexivity. Qed.

Lemma length_filter_Zsum {A} (P : A → Prop) `{!∀ x, Decision (P x)} (l : list A) :
  Z.of_nat (length (filter P l))
  = Zsum (map (λ x, if decide (P x) then 1 else 0)%Z l).
Proof.
  induction l as [|x l IH]; [done|].
  rewrite filter_cons. simpl. destruct (decide (P x)); simpl; lia.
Qed.

Lemma alive_indicator S a b :
  binary S →
  (if decide (alive S a b = Some true) then 1 else 0)%Z = default 0%Z (cell S a b).
Proof.
  intros Hb. unfold alive.
  destruct (cell S a b) as [c|] eqn:Hc; [|by case_decide].
  destruct (binary_cell S a b c Hb Hc) as [-> | ->];
    case_decide as H; vm_compute in H; by simplify_eq.
Qed.

Lemma count_is_spec_count w h S x y :
  binary S →
  Zsum (map (shifted_cell S w h x y) offsets)
  = Z.of_nat (spec_neighbor_count S w h x y).
Proof.
  intros Hb. unfold spec_neighbor_count.
  rewrite length_filter_Zsum, toroidal_neighbors_eq, offsets_eq.
  rewrite <- list_fmap_compose. unfold compose. simpl.
  rewrite !alive_indicator by done.
  unfold shifted_cell, Z.sub. simpl.
  change (- (-1))%Z with 1%Z. change (- 0)%Z with 0%Z. change (- (1))%Z with (-1)%Z.
  lia.
Qed.

(** C2. On a valid grid state the count accumulated from the eight
    rolled copies equals, at every coordinate, the number of alive cells
    among the eight wrapped coordinates [((x + dx) mod width,
    (y + dy) mod height)], and lies between 0 and 8. *)
Theorem C2_neighbor_count_refines w h S x y :
  valid_state w h S → x < w → y < h →
  ∃ nc, neighbors_count S = Ok (SumArray nc) ∧
        cell nc x y = Some (Z.of_nat (spec_neighbor_count S w h x y)) ∧
        (0 ≤ Z.of_nat (spec_neighbor_count S w h x y) ≤ 8)%Z.
Proof.
  intros HS Hx Hy.
  pose proof (valid_state_shape _ _ _ HS) as Hshape.
  pose proof (valid_state_binary _ _ _ HS) as Hb.
  exists (IntArray (count_table S)).
  assert (Hc := count_table_at S w h Hshape Hb x y Hx Hy).
  rewrite count_is_spec_count in Hc by done.
  split_and!; [by eapply neighbors_count_closed | done | lia |].
  by eapply (count_table_bounds S w h).
Qed.

Lemma C2_neighbor_count_refines_witness :
  ∃ nc, neighbors_count (IntArray [[1; 0; 1]; [0; 0; 1]]%Z) = Ok (SumArray nc) ∧
        cell nc 1 0
        = Some (Z.of_nat (spec_neighbor_count (IntArray [[1; 0; 1]; [0; 0; 1]]%Z) 2 3 1 0)) ∧
        (0 ≤ Z.of_nat (spec_neighbor_count (IntArray [[1; 0; 1]; [0; 0; 1]]%Z) 2 3 1 0) ≤ 8)%Z.
Proof.
  apply (C2_neighbor_count_refines 2 3); [|lia|lia].
  split_and!; [lia | lia | |].
  - split; [done|]. repeat constructor.
  - simpl. repeat first [apply Forall_nil_2 | apply Forall_cons_2 | lia].
Defined.

(** ** Shapes *)

(** C6. [update_game_state] returns a grid of the width and height of its
    argument. *)
Theorem C6_shape_preserved w h S :
  valid_state w h S →
  ∃ S', update_game_state S = Ok S' ∧ has_shape S' w h.
Proof.
  intros HS. pose proof (valid_state_shape _ _ _ HS) as Hshape.
  exists (next_array S).
  split; [by eapply update_game_state_closed | by apply has_shape_next_array].
Qed.

Lemma C6_shape_preserved_witness :
  ∃ S', update_game_state (IntArray [[1; 0; 1]; [0; 0; 1]]%Z) = Ok S'
        ∧ has_shape S' 2 3.
Proof.
  apply (C6_shape_preserved 2 3).
  split_and!; [lia | lia | |].
  - split; [done|]. repeat constructor.
  - simpl. repeat first [apply Forall_nil_2 | apply Forall_cons_2 | lia].
Defined.

(** ** Initialisation *)

Lemma rect_tabulate {A} (f : nat → nat → A) (w h : nat) :
  rect w h (map (λ x, map (f x) (seq 0 h)) (seq 0 w)).
Proof.
  split; [by rewrite length_map, length_seq|].
  apply Forall_fmap, Forall_forall. intros x _. simpl.
  by rewrite length_map, length_seq.
Qed.

(** C5 as written fails: a width of 0 is accepted and gives a grid
    without cells. *)
Lemma C5_zero_width_accepted :
  initialize_game (λ _ _, None) 0 5 (λ _ _, false) = Ok (IntArray []).
Proof. reflexivity. Qed.

(** C5, amended.  [initialize_game] has no probability argument and
    checks nothing itself.  It raises and returns no grid when numpy cannot
    make an array of the sizes asked for, and when the width or the height
    is negative ([ValueError], unless numpy has objected to the sizes
    before).  In every other case, a width or height of 0 included, it
    returns an int array of exactly [width] rows of exactly [height] cells
    each; with a width of 0 this is the grid without rows. *)
Theorem C5_initialize_dimensions too_large (width height : Z) draw :
  (∀ e, too_large width height = Some e →
     initialize_game too_large width height draw = Raise e) ∧
  ((width < 0 ∨ height < 0)%Z →
     initialize_game too_large width height draw
     = Raise (default ValueError (too_large width height))) ∧
  ((0 ≤ width)%Z → (0 ≤ height)%Z → too_large width height = None →
     ∃ rows, initialize_game too_large width height draw = Ok (IntArray rows) ∧
             length rows = Z.to_nat width ∧
             Forall (λ r, length r = Z.to_nat height) rows ∧
             (width = 0%Z → rows = [])).
Proof.
  unfold initialize_game, np_random_choice. split_and!.
  - intros e ->. done.
  - intros Hneg. destruct (too_large width height) as [e|]; [done|].
    simpl. by rewrite decide_True.
  - intros Hw Hh ->. rewrite decide_False by lia.
    eexists. split; [done|].
    destruct (rect_tabulate (λ x y, if draw x y then 1%Z else 0%Z)
                (Z.to_nat width) (Z.to_nat height)) as [Hlen Hrows].
    split_and!; [exact Hlen | exact Hrows |].
    intros ->. done.
Qed.

Lemma C5_initialize_dimensions_witness :
  initialize_game (λ w h, if decide (w * h ≤ 1000)%Z then None else Some MemoryError)
    100 100 (λ _ _, true) = Raise MemoryError ∧
  initialize_game (λ _ _, None) (-1) 5 (λ _ _, true) = Raise ValueError ∧
  ∃ rows, initialize_game (λ _ _, None) 2 3 (λ _ _, true) = Ok (IntArray rows) ∧
          length rows = 2 ∧ Forall (λ r, length r = 3) rows ∧
          ((2 = 0)%Z → rows = []).
Proof.
  split_and!.
  - apply (proj1 (C5_initialize_dimensions
                    (λ w h, if decide (w * h ≤ 1000)%Z then None else Some MemoryError)
                    100 100 (λ _ _, true))).
    reflexivity.
  - apply (proj1 (proj2 (C5_initialize_dimensions (λ _ _, None) (-1) 5 (λ _ _, true)))).
    lia.
  - apply (proj2 (proj2 (C5_initialize_dimensions (λ _ _, None) 2 3 (λ _ _, true))));
      [lia | lia | reflexivity].
Defined.

(** ** What the cells hold *)

(** C4 as written fails: the grid drawn by [initialize_game] is an
    integer array. *)
Lemma C4_initial_grid_is_integer :
  initialize_game (λ _ _, None) 2 1 (λ x _, bool_decide (x = 0))
  = Ok (IntArray [[1]; [0]]%Z)
  ∧ is_bool_array (IntArray [[1]; [0]]%Z) = false.
Proof. split; reflexivity. Qed.

Lemma binary_tabulate (draw : nat → nat → bool) (w h : nat) :
  Forall (Forall (λ z, z = 0 ∨ z = 1)%Z)
    (map (λ x, map (λ y, if draw x y then 1%Z else 0%Z) (seq 0 h)) (seq 0 w)).
Proof.
  apply Forall_fmap, Forall_forall. intros x _. simpl.
  apply Forall_fmap, Forall_forall. intros y _. simpl.
  destruct (draw x y); auto.
Qed.

(** C4, amended.  The grid returned by [initialize_game] is an integer
    array whose cells are 0 (dead) or 1 (alive); [update_game_state]
    applied to a boolean grid returns a boolean grid. *)
Theorem C4_cell_values :
  (∀ too_large width height draw g,
     initialize_game too_large width height draw = Ok g →
     is_bool_array g = false ∧ binary g) ∧
  (∀ w h S,
     has_shape S w h → is_bool_array S = true →
     ∃ S', update_game_state S = Ok S' ∧ is_bool_array S' = true).
Proof.
  split.
  - intros too_large width height draw g. unfold initialize_game, np_random_choice.
    destruct (too_large width height); [done|].
    case_decide; [done|]. intros [= <-]. split; [done|].
    apply binary_tabulate.
  - intros w h S HS Hbool. exists (next_array S).
    split; [by eapply update_game_state_closed|].
    by destruct S.
Qed.

Lemma C4_cell_values_witness :
  (is_bool_array (IntArray [[1]; [0]]%Z) = false ∧ binary (IntArray [[1]; [0]]%Z)) ∧
  ∃ S', update_game_state (BoolArray [[true; false]]) = Ok S'
        ∧ is_bool_array S' = true.
Proof.
  split.
  - apply (proj1 C4_cell_values (λ _ _, None) 2%Z 1%Z (λ x _, bool_decide (x = 0))).
    reflexivity.
  - apply (proj2 C4_cell_values 1 2); [|reflexivity].
    split; [done|]. repeat constructor.
Defined.

(** ** Concrete boards *)

(** C8. On the 5 by 5 grid whose only live cell is [(0, 0)], that cell is
    counted as a neighbour at [(4, 4)], [(4, 0)] and [(0, 4)]: it is among
    their wrapped neighbour coordinates and their count is 1. *)
Theorem C8_corner_wraps :
  ∃ nc, neighbors_count (BoolArray (board 5 5 [(0, 0)])) = Ok (SumArray nc) ∧
        cell nc 4 4 = Some 1%Z ∧ cell nc 4 0 = Some 1%Z ∧ cell nc 0 4 = Some 1%Z ∧
        (0, 0) ∈ toroidal_neighbors 5 5 4 4 ∧
        (0, 0) ∈ toroidal_neighbors 5 5 4 0 ∧
        (0, 0) ∈ toroidal_neighbors 5 5 0 4.
Proof.
  eexists. split; [vm_compute; reflexivity|].
  split_and!; try reflexivity; vm_compute; set_solver.
Qed.

(** C9. The blinker on the 10 by 10 torus: the row [(4,5), (5,5), (6,5)]
    becomes the column [(5,4), (5,5), (5,6)] and the column becomes the
    row again, as a bool array and as an int array of 0s and 1s. *)
Theorem C9_blinker_period_two :
  update_game_state (BoolArray (board 10 10 [(4, 5); (5, 5); (6, 5)]))
  = Ok (BoolArray (board 10 10 [(5, 4); (5, 5); (5, 6)])) ∧
  update_game_state (BoolArray (board 10 10 [(5, 4); (5, 5); (5, 6)]))
  = Ok (BoolArray (board 10 10 [(4, 5); (5, 5); (6, 5)])) ∧
  update_game_state (IntArray (map (map Z.b2z) (board 10 10 [(4, 5); (5, 5); (6, 5)])))
  = Ok (IntArray (map (map Z.b2z) (board 10 10 [(5, 4); (5, 5); (5, 6)]))) ∧
  update_game_state (IntArray (map (map Z.b2z) (board 10 10 [(5, 4); (5, 5); (5, 6)])))
  = Ok (IntArray (map (map Z.b2z) (board 10 10 [(4, 5); (5, 5); (6, 5)]))) ∧
  board 10 10 [(4, 5); (5, 5); (6, 5)] ≠ board 10 10 [(5, 4); (5, 5); (5, 6)].
Proof.
  split_and!;
    [vm_compute; reflexivity | vm_compute; reflexivity
    | vm_compute; reflexivity | vm_compute; reflexivity |].
  vm_compute. discriminate.
Qed.

(** C10. On the 1 by 1 grid with its cell alive the cell is its own
    neighbour through all eight offsets: its count is 8 and the next state
    is dead.  On every grid of positive dimensions [update_game_state]
    returns a grid. *)
Theorem C10_degenerate_grids :
  toroidal_neighbors 1 1 0 0 = replicate 8 (0, 0) ∧
  neighbors_count (BoolArray [[true]]) = Ok (SumArray (IntArray [[8%Z]])) ∧
  update_game_state (BoolArray [[true]]) = Ok (BoolArray [[false]]) ∧
  neighbors_count (IntArray [[1%Z]]) = Ok (SumArray (IntArray [[8%Z]])) ∧
  update_game_state (IntArray [[1%Z]]) = Ok (IntArray [[0%Z]]) ∧
  (∀ w h S, 0 < w → 0 < h → has_shape S w h →
     ∃ S', update_game_state S = Ok S' ∧ has_shape S' w h).
Proof.
  split_and!;
    [vm_compute; reflexivity | vm_compute; reflexivity | vm_compute; reflexivity
    | vm_compute; reflexivity | vm_compute; reflexivity |].
  intros w h S _ _ HS. exists (next_array S).
  split; [by eapply update_game_state_closed | by apply has_shape_next_array].
Qed.

Lemma C10_degenerate_grids_witness :
  ∃ S', update_game_state (BoolArray [[true; true]]) = Ok S' ∧ has_shape S' 1 2.
Proof.
  apply (proj2 (proj2 (proj2 (proj2 (proj2 C10_degenerate_grids)))) 1 2);
    [lia | lia |].
  split; [done|]. repeat constructor.
Defined.

(** ** Objects and references *)

Section store.
Import Store.
Implicit Types (σ : gmap loc ndarray) (l : loc).

Lemma M_bind_Ok {A B} (m : M A) (f : A → M B) σ a σ' :
  m σ = Ok (a, σ') → (m ≫= f) σ = f a σ'.
Proof. intros H. unfold mbind, M_bind. by rewrite H. Qed.

Lemma load_Ok σ l a : σ !! l = Some a → load l σ = Ok (a, σ).
Proof. intros H. unfold load. by rewrite H. Qed.

(** Allocation returns a reference that was not in use and leaves every
    other object as it was. *)
Lemma alloc_new a σ :
  ∃ l, alloc a σ = Ok (l, <[l := a]> σ) ∧ σ !! l = None ∧ σ ⊆ <[l := a]> σ.
Proof.
  exists (fresh (dom σ)).
  assert (σ !! fresh (dom σ) = None) by apply not_elem_of_dom, is_fresh.
  split_and!; [done | done | by apply insert_subseteq].
Qed.

Lemma unop_obj_new op σ l a :
  σ !! l = Some a →
  ∃ l' σ', unop_obj op l σ = Ok (l', σ') ∧ σ ⊆ σ' ∧
           σ !! l' = None ∧ σ' !! l' = Some (op a).
Proof.
  intros Hl. destruct (alloc_new (op a) σ) as (l' & Hal & Hnew & Hsub).
  exists l', (<[l' := op a]> σ). unfold unop_obj.
  rewrite (M_bind_Ok _ _ _ _ _ (load_Ok _ _ _ Hl)).
  split_and!; [done | done | done | by rewrite lookup_insert_eq].
Qed.

Lemma binop_obj_new op σ l k a b r :
  σ !! l = Some a → σ !! k = Some b → op a b = Ok r →
  ∃ l' σ', binop_obj op l k σ = Ok (l', σ') ∧ σ ⊆ σ' ∧
           σ !! l' = None ∧ σ' !! l' = Some r.
Proof.
  intros Hl Hk Hop. destruct (alloc_new r σ) as (l' & Hal & Hnew & Hsub).
  exists l', (<[l' := r]> σ). unfold binop_obj.
  rewrite (M_bind_Ok _ _ _ _ _ (load_Ok _ _ _ Hl)).
  rewrite (M_bind_Ok _ _ _ _ _ (load_Ok _ _ _ Hk)).
  rewrite Hop. rewrite (M_bind_Ok (lift (Ok r)) _ σ r σ) by done.
  split_and!; [done | done | done | by rewrite lookup_insert_eq].
Qed.

Lemma roll_obj_new σ l a shift axis r :
  σ !! l = Some a → np_roll a shift axis = Ok r →
  ∃ l' σ', roll_obj l shift axis σ = Ok (l', σ') ∧ σ ⊆ σ' ∧
           σ !! l' = None ∧ σ' !! l' = Some r.
Proof.
  intros Hl Hop. destruct (alloc_new r σ) as (l' & Hal & Hnew & Hsub).
  exists l', (<[l' := r]> σ). unfold roll_obj.
  rewrite (M_bind_Ok _ _ _ _ _ (load_Ok _ _ _ Hl)).
  rewrite Hop. rewrite (M_bind_Ok (lift (Ok r)) _ σ r σ) by done.
  split_and!; [done | done | done | by rewrite lookup_insert_eq].
Qed.

Lemma rolled_obj_new σ l g ij :
  σ !! l = Some g →
  ∃ l' σ', rolled_obj l ij σ = Ok (l', σ') ∧ σ ⊆ σ' ∧
           σ !! l' = None ∧ σ' !! l' = Some (roll2_array g ij).
Proof.
  intros Hl.
  destruct (roll_obj_new σ l g ij.1 0
              (match g with
               | BoolArray rows => BoolArray (roll_list ij.1 rows)
               | IntArray rows => IntArray (roll_list ij.1 rows)
               end) Hl eq_refl) as (l1 & σ1 & Hrun1 & Hsub1 & Hnew1 & Hl1).
  destruct (roll_obj_new σ1 l1 _ ij.2 1 (roll2_array g ij) Hl1)
    as (l2 & σ2 & Hrun2 & Hsub2 & Hnew2 & Hl2); [by destruct g|].
  exists l2, σ2. unfold rolled_obj.
  rewrite (M_bind_Ok _ _ _ _ _ Hrun1).
  split_and!; [done | store_mono | store_mono | done].
Qed.
End store.

Section transition.
Import Store.
Implicit Types (σ : gmap loc ndarray) (l : loc).

Lemma sum_rel_weaken σ σ' r v : σ ⊆ σ' → sum_rel σ r v → sum_rel σ' r v.
Proof.
  intros Hsub. destruct r, v; simpl; try done.
  intros H. by eapply lookup_weaken.
Qed.

Lemma py_add_obj_new σ acc accv item a v :
  sum_rel σ acc accv → σ !! item = Some a → py_add accv a = Ok v →
  ∃ r σ', py_add_obj acc item σ = Ok (r, σ') ∧ σ ⊆ σ' ∧ sum_rel σ' r v.
Proof.
  intros Hrel Hitem Hadd. destruct acc as [z|la], accv as [z'|b]; simpl in *;
    try done.
  - subst z'. simplify_eq.
    destruct (unop_obj_new (np_radd_scalar z) σ item a Hitem)
      as (l' & σ' & Hrun & Hsub & _ & Hl').
    exists (RefArray l'), σ'. rewrite (M_bind_Ok _ _ _ _ _ Hrun).
    by split_and!.
  - destruct (np_add b a) as [r|] eqn:Hop; simplify_eq/=.
    destruct (binop_obj_new np_add σ la item b a r Hrel Hitem Hop)
      as (l' & σ' & Hrun & Hsub & _ & Hl').
    exists (RefArray l'), σ'. rewrite (M_bind_Ok _ _ _ _ _ Hrun).
    by split_and!.
Qed.

(** The loop of [sum] on references follows the loop on values and only
    adds objects to the store. *)
Lemma foldlM_obj gs g offs : ∀ σ acc accv v,
  σ !! gs = Some g → sum_rel σ acc accv →
  foldlM (λ acc ij, item ← rolled g ij; py_add acc item) accv offs = Ok v →
  ∃ r σ',
    foldlM (λ acc ij, item ← rolled_obj gs ij; py_add_obj acc item) acc offs σ
    = Ok (r, σ') ∧ σ ⊆ σ' ∧ sum_rel σ' r v.
Proof.
  induction offs as [|ij offs IH]; intros σ acc accv v Hgs Hrel Hfold.
  - injection Hfold as <-. exists acc, σ.
    split_and!; [reflexivity | reflexivity | done].
  - rewrite foldlM_cons, rolled_eq, bind_Ok in Hfold.
    destruct (py_add accv (roll2_array g ij)) as [v1|] eqn:Hadd; [|done].
    rewrite bind_Ok in Hfold.
    destruct (rolled_obj_new σ gs g ij Hgs) as (li & σ1 & Hrun1 & Hsub1 & _ & Hli).
    destruct (py_add_obj_new σ1 acc accv li _ v1
                (sum_rel_weaken _ _ _ _ Hsub1 Hrel) Hli Hadd)
      as (r1 & σ2 & Hrun2 & Hsub2 & Hrel2).
    destruct (IH σ2 r1 v1 v) as (r & σ3 & Hrun3 & Hsub3 & Hrel3);
      [store_mono | done | done |].
    exists r, σ3. rewrite foldlM_cons.
    rewrite (M_bind_Ok _ _ σ r1 σ2).
    + split_and!; [done | store_mono | done].
    + by rewrite (M_bind_Ok _ _ _ _ _ Hrun1).
Qed.

(** [update_game_state] on references computes what it computes on
    values, into a new object, and leaves the store's objects as they
    were. *)
Lemma update_game_state_obj_new σ gs g g' :
  σ !! gs = Some g → update_game_state g = Ok g' →
  ∃ l' σ', update_game_state_obj gs σ = Ok (l', σ') ∧ σ ⊆ σ' ∧
           σ !! l' = None ∧ σ' !! l' = Some g'.
Proof.
  intros Hgs Hupd. unfold update_game_state in Hupd.
  destruct (neighbors_count g) as [v|] eqn:Hnc; [|done].
  rewrite bind_Ok in Hupd.
  destruct (foldlM_obj gs g offsets σ (RefInt 0) (SumInt 0) v Hgs eq_refl Hnc)
    as (r & σ1 & Hrun1 & Hsub1 & Hrel1).
  unfold update_game_state_obj, neighbors_count_obj.
  rewrite (M_bind_Ok _ _ _ _ _ Hrun1).
  pose proof (lookup_weaken _ _ _ _ Hgs Hsub1) as Hgs1.
  destruct r as [z|lnc], v as [z'|nc]; simpl in Hrel1; try done.
  - subst z'. simplify_eq.
    destruct (unop_obj_new (λ a, np_and_pybool a (bool_decide (z = 2%Z))) σ1 gs g Hgs1)
      as (l2 & σ2 & Hrun2 & Hsub2 & _ & Hl2).
    destruct (unop_obj_new (np_ror_pybool (bool_decide (z = 3%Z))) σ2 l2 _ Hl2)
      as (l3 & σ3 & Hrun3 & Hsub3 & Hnew3 & Hl3).
    exists l3, σ3. rewrite (M_bind_Ok _ _ _ _ _ Hrun2).
    split_and!; [done | store_mono | store_mono | done].
  - destruct (np_and g (np_eq_scalar nc 2)) as [survive|] eqn:Hand; [|done].
    rewrite bind_Ok in Hupd.
    destruct (unop_obj_new (λ a, np_eq_scalar a 3) σ1 lnc nc Hrel1)
      as (l2 & σ2 & Hrun2 & Hsub2 & _ & Hl2).
    destruct (unop_obj_new (λ a, np_eq_scalar a 2) σ2 lnc nc)
      as (l3 & σ3 & Hrun3 & Hsub3 & _ & Hl3); [store_mono|].
    destruct (binop_obj_new np_and σ3 gs l3 g (np_eq_scalar nc 2) survive) as
      (l4 & σ4 & Hrun4 & Hsub4 & _ & Hl4); [store_mono | done | done |].
    destruct (binop_obj_new np_or σ4 l2 l4 (np_eq_scalar nc 3) survive g')
      as (l5 & σ5 & Hrun5 & Hsub5 & Hnew5 & Hl5); [store_mono | done | done |].
    exists l5, σ5.
    rewrite (M_bind_Ok _ _ _ _ _ Hrun2), (M_bind_Ok _ _ _ _ _ Hrun3),
      (M_bind_Ok _ _ _ _ _ Hrun4).
    split_and!; [done | store_mono | store_mono | done].
Qed.
End transition.

Section frames.
Import Store.
Implicit Types (σ : gmap loc ndarray) (l : loc).

Lemma chain_weaken σ σ' prev frames :
  σ ⊆ σ' → chain σ prev frames → chain σ' prev frames.
Proof.
  intros Hsub. revert prev.
  induction frames as [|f frames IH]; intros prev; [done|].
  simpl. intros [(Sp & Sf & Hp & Hf & Hupd) Hrest]. split; [|by apply IH].
  exists Sp, Sf. split_and!; [by eapply lookup_weaken.. | done].
Qed.

Lemma chain_lookup σ prev frames k fk fk' :
  chain σ prev frames →
  (prev :: frames) !! k = Some fk → (prev :: frames) !! S k = Some fk' →
  ∃ Sk Sk', σ !! fk = Some Sk ∧ σ !! fk' = Some Sk' ∧
            update_game_state Sk = Ok Sk'.
Proof.
  revert prev k. induction frames as [|f frames IH]; intros prev k Hch Hk Hk'.
  - by destruct k.
  - destruct Hch as [(Sp & Sf & Hp & Hf & Hupd) Hrest].
    destruct k as [|k]; simplify_eq/=; [by exists Sp, Sf|].
    by eapply IH.
Qed.

Lemma take_frames_S n g :
  take_frames (S n) g
  = (fg ← next g; frames ← take_frames n fg.2; mret (fg.1 :: frames)).
Proof. reflexivity. Qed.

Lemma next_created l σ :
  next (generate_frames l) σ = Ok ((l, Generator AtYield l), σ).
Proof. reflexivity. Qed.

Lemma next_at_yield l σ l' σ' :
  update_game_state_obj l σ = Ok (l', σ') →
  next (Generator AtYield l) σ = Ok ((l', Generator AtYield l'), σ').
Proof.
  intros Hrun.
  change (next (Generator AtYield l))
    with (game_state ← update_game_state_obj l;
          mret (M := M) (game_state, Generator AtYield game_state)).
  by rewrite (M_bind_Ok _ _ _ _ _ Hrun).
Qed.

Lemma take_frames_cons n g σ f g' σ1 frames σ2 :
  next g σ = Ok ((f, g'), σ1) →
  take_frames n g' σ1 = Ok (frames, σ2) →
  take_frames (S n) g σ = Ok (f :: frames, σ2).
Proof.
  intros Hnext Hrun. rewrite take_frames_S.
  rewrite (M_bind_Ok _ _ _ _ _ Hnext).
  change ((f, g').2) with g'. change ((f, g').1) with f.
  by rewrite (M_bind_Ok _ _ _ _ _ Hrun).
Qed.

(** Pulling [n] more frames from a generator suspended at its [yield]. *)
Lemma take_frames_at_yield w h n : ∀ σ l S,
  σ !! l = Some S → has_shape S w h →
  ∃ frames σ',
    take_frames n (Generator AtYield l) σ = Ok (frames, σ') ∧
    σ ⊆ σ' ∧ length frames = n ∧ chain σ' l frames.
Proof.
  induction n as [|n IH]; intros σ l S Hl HS.
  - by exists [], σ.
  - destruct (update_game_state_obj_new σ l S (next_array S) Hl)
      as (l1 & σ1 & Hrun1 & Hsub1 & Hnew1 & Hl1);
      [by eapply update_game_state_closed|].
    destruct (IH σ1 l1 (next_array S) Hl1) as (frames & σ2 & Hrun2 & Hsub2 & Hlen & Hch);
      [by apply has_shape_next_array|].
    exists (l1 :: frames), σ2.
    split_and!.
    + eapply take_frames_cons; [by apply next_at_yield | done].
    + store_mono.
    + by rewrite length_cons, Hlen.
    + split; [|done].
      exists S, (next_array S).
      split_and!; [store_mono | store_mono
                  | by eapply update_game_state_closed].
Qed.

(** C7. A call of [update_game_state] leaves its argument as it was:
    the result is a new object, and the object passed in, like every
    other object of the store, holds afterwards what it held before. *)
Theorem C7_input_unchanged w h σ l S :
  σ !! l = Some S → has_shape S w h →
  ∃ l' σ' S',
    update_game_state_obj l σ = Ok (l', σ') ∧
    update_game_state S = Ok S' ∧ σ' !! l' = Some S' ∧
    l' ≠ l ∧ σ' !! l = Some S ∧
    (∀ k a, σ !! k = Some a → σ' !! k = Some a).
Proof.
  intros Hl HS.
  destruct (update_game_state_obj_new σ l S (next_array S) Hl)
    as (l' & σ' & Hrun & Hsub & Hnew & Hl');
    [by eapply update_game_state_closed|].
  exists l', σ', (next_array S).
  split_and!; [done | by eapply update_game_state_closed | done | congruence
              | by eapply lookup_weaken |].
  intros k a Hk. by eapply lookup_weaken.
Qed.

Lemma C7_input_unchanged_witness :
  ∃ l' σ' S',
    update_game_state_obj 0 {[ 0 := BoolArray [[true; false]] ]} = Ok (l', σ') ∧
    update_game_state (BoolArray [[true; false]]) = Ok S' ∧ σ' !! l' = Some S' ∧
    l' ≠ 0 ∧ σ' !! 0 = Some (BoolArray [[true; false]]) ∧
    (∀ k a, ({[ 0 := BoolArray [[true; false]] ]} : gmap loc ndarray) !! k = Some a
            → σ' !! k = Some a).
Proof.
  apply (C7_input_unchanged 1 2).
  - apply lookup_singleton_eq.
  - split; [done|]. repeat constructor.
Defined.

(** C3. The generator made by [generate_frames] from a grid [S0] yields
    [S0] itself first; each later frame holds [update_game_state] of the
    frame before it, so the second frame is the successor of [S0] and
    the third the successor of that. *)
Theorem C3_sequence_ordering w h σ l S0 n :
  σ !! l = Some S0 → has_shape S0 w h →
  ∃ frames σ',
    take_frames (S (S n)) (generate_frames l) σ = Ok (frames, σ') ∧
    length frames = S (S n) ∧
    frames !! 0 = Some l ∧ σ' !! l = Some S0 ∧
    (∀ k, k ≤ n →
       ∃ fk fk' Sk Sk',
         frames !! k = Some fk ∧ frames !! S k = Some fk' ∧
         σ' !! fk = Some Sk ∧ σ' !! fk' = Some Sk' ∧
         update_game_state Sk = Ok Sk').
Proof.
  intros Hl HS.
  destruct (take_frames_at_yield w h (S n) σ l S0 Hl HS)
    as (frames & σ' & Hrun & Hsub & Hlen & Hch).
  exists (l :: frames), σ'.
  split_and!.
  - eapply take_frames_cons; [apply next_created | exact Hrun].
  - by rewrite length_cons, Hlen.
  - reflexivity.
  - by eapply lookup_weaken.
  - intros k Hk.
    destruct (lookup_lt_is_Some_2 (l :: frames) k) as [fk Hfk];
      [rewrite length_cons; lia|].
    destruct (lookup_lt_is_Some_2 (l :: frames) (S k)) as [fk' Hfk'];
      [rewrite length_cons; lia|].
    destruct (chain_lookup σ' l frames k fk fk' Hch Hfk Hfk')
      as (Sk & Sk' & HSk & HSk' & Hupd).
    by exists fk, fk', Sk, Sk'.
Qed.

Lemma C3_sequence_ordering_witness :
  ∃ frames σ',
    take_frames 3 (generate_frames 0) {[ 0 := BoolArray [[true; false]] ]}
    = Ok (frames, σ') ∧
    length frames = 3 ∧
    frames !! 0 = Some 0 ∧ σ' !! 0 = Some (BoolArray [[true; false]]) ∧
    (∀ k, k ≤ 1 →
       ∃ fk fk' Sk Sk',
         frames !! k = Some fk ∧ frames !! S k = Some fk' ∧
         σ' !! fk = Some Sk ∧ σ' !! fk' = Some Sk' ∧
         update_game_state Sk = Ok Sk').
Proof.
  apply (C3_sequence_ordering 1 2).
  - apply lookup_singleton_eq.
  - split; [done|]. repeat constructor.
Defined.
End frames.

(** * Further properties of the engine *)

(** ** Cells of the next state *)

Lemma next_array_cell S x y :
  cell (next_array S) x y
  = (s ← cell S x y; c ← at2 (count_table S) x y; Some (rule_cell s c)).
Proof.
  unfold cell, rule_cell.
  destruct S as [rows|rows]; unfold next_array, np_eq_scalar, as_int.
  - rewrite !at2_map, at2_zip2, at2_map, at2_zip2, at2_map.
    destruct (at2 rows x y) as [b|], (at2 (count_table (BoolArray rows)) x y) as [c|];
      try done.
    simpl. f_equal.
    by destruct b, (bool_decide (c = 3%Z)), (bool_decide (c = 2%Z)).
  - rewrite at2_zip2, !at2_map, at2_zip2, !at2_map.
    by destruct (at2 rows x y) as [s|], (at2 (count_table (IntArray rows)) x y) as [c|].
Qed.

Lemma Zland_1_r s : Z.land s 1 = (s `mod` 2)%Z.
Proof. apply (Z.land_ones s 1). lia. Qed.

Lemma rule_cell_binary s c : rule_cell s c = 0%Z ∨ rule_cell s c = 1%Z.
Proof.
  unfold rule_cell.
  pose proof (Z.mod_pos_bound s 2) as Hs.
  destruct (bool_decide (c = 3%Z)), (bool_decide (c = 2%Z));
    cbn [Z.b2z]; rewrite ?Zland_1_r, ?Z.land_0_r, ?Z.lor_0_l; try lia.
  - assert (s `mod` 2 = 0 ∨ s `mod` 2 = 1)%Z as [-> | ->] by lia; auto.
  - auto.
Qed.

Lemma Forall2d_at2 {A} (P : A → Prop) (rows : list (list A)) :
  (∀ x y c, at2 rows x y = Some c → P c) → Forall (Forall P) rows.
Proof.
  intros H. apply Forall_lookup. intros x r Hr.
  apply Forall_lookup. intros y c Hc.
  apply (H x y). unfold at2. by rewrite Hr.
Qed.

Lemma binary_next_array S : binary (next_array S).
Proof.
  pose proof (next_array_cell S) as Hcell.
  destruct S as [rows|rows]; [done|].
  unfold binary. change (next_array (IntArray rows))
    with (IntArray (as_int (next_array (IntArray rows)))).
  apply Forall2d_at2. intros x y c Hc.
  specialize (Hcell x y). unfold cell in Hcell. rewrite Hc in Hcell.
  symmetry in Hcell. apply bind_Some in Hcell as (s & _ & Hcell).
  apply bind_Some in Hcell as (n & _ & Hcell). simplify_eq.
  apply rule_cell_binary.
Qed.

Lemma is_bool_next_array S : is_bool_array (next_array S) = is_bool_array S.
Proof. by destruct S. Qed.

(** X1. On every rectangular array, whatever its cells hold,
    [update_game_state] returns an array of the same shape and dtype whose
    cells are truth values (0 or 1 in an int array); so a valid state steps
    to a valid state. *)
Theorem X1_step_keeps_states w h S :
  has_shape S w h →
  ∃ S', update_game_state S = Ok S' ∧ has_shape S' w h ∧
        is_bool_array S' = is_bool_array S ∧ binary S' ∧
        (valid_state w h S → valid_state w h S').
Proof.
  intros HS. exists (next_array S).
  pose proof (has_shape_next_array S w h HS) as Hshape.
  pose proof (binary_next_array S) as Hb.
  split_and!; [by eapply update_game_state_closed | done
              | apply is_bool_next_array | done |].
  intros (Hw & Hh & _ & _). by split_and!.
Qed.

Lemma X1_step_keeps_states_witness :
  ∃ S', update_game_state (IntArray [[5; -2; 1]; [0; 7; 1]]%Z) = Ok S' ∧
        has_shape S' 2 3 ∧
        is_bool_array S' = is_bool_array (IntArray [[5; -2; 1]; [0; 7; 1]]%Z) ∧
        binary S' ∧
        (valid_state 2 3 (IntArray [[5; -2; 1]; [0; 7; 1]]%Z) → valid_state 2 3 S').
Proof.
  apply (X1_step_keeps_states 2 3). split; [done|]. repeat constructor.
Defined.

(** ** The rule in terms of live neighbours *)

Lemma next_array_alive_spec w h S x y :
  valid_state w h S → x < w → y < h →
  ∃ a, alive S x y = Some a ∧
       alive (next_array S) x y
       = Some (bool_decide (spec_neighbor_count S w h x y = 3)
               || (a && bool_decide (spec_neighbor_count S w h x y = 2))).
Proof.
  intros HS Hx Hy.
  pose proof (valid_state_shape _ _ _ HS) as Hshape.
  pose proof (valid_state_binary _ _ _ HS) as Hb.
  destruct (at2_is_Some w h (as_int S) x y) as [s Hs];
    [by apply has_shape_as_int | done | done |].
  exists (bool_decide (s ≠ 0%Z)).
  assert (Ha : alive S x y = Some (bool_decide (s ≠ 0%Z))).
  { unfold alive, cell. by rewrite Hs. }
  split; [done|].
  assert (Hc := count_table_at S w h Hshape Hb x y Hx Hy).
  rewrite count_is_spec_count in Hc by done.
  rewrite (next_array_alive w h S x y _ _ Hshape Hb Hc Ha).
  do 2 f_equal; [|f_equal]; apply bool_decide_ext; lia.
Qed.

(** X2. The four rules of the module's docstring, with the number of
    live cells among the eight wrapped neighbours: a live cell with fewer
    than two live neighbours dies, with two or three it lives on, with
    more than three it dies, and a dead cell with exactly three becomes
    alive. *)
Theorem X2_docstring_rules w h S x y :
  valid_state w h S → x < w → y < h →
  ∃ S' a a',
    update_game_state S = Ok S' ∧
    alive S x y = Some a ∧ alive S' x y = Some a' ∧
    (a = true → spec_neighbor_count S w h x y < 2 → a' = false) ∧
    (a = true → spec_neighbor_count S w h x y = 2
                ∨ spec_neighbor_count S w h x y = 3 → a' = true) ∧
    (a = true → 3 < spec_neighbor_count S w h x y → a' = false) ∧
    (a = false → spec_neighbor_count S w h x y = 3 → a' = true).
Proof.
  intros HS Hx Hy.
  destruct (next_array_alive_spec w h S x y HS Hx Hy) as (a & Ha & Ha').
  exists (next_array S), a. eexists.
  split_and!; [by eapply update_game_state_closed, valid_state_shape
              | done | exact Ha' | ..].
  - intros -> Hn. rewrite !bool_decide_eq_false_2 by lia. done.
  - intros -> [Hn | Hn].
    + rewrite (bool_decide_eq_true_2 (_ = 2)) by done. apply orb_true_r.
    + by rewrite (bool_decide_eq_true_2 (_ = 3)).
  - intros -> Hn. rewrite !bool_decide_eq_false_2 by lia. done.
  - intros -> Hn. by rewrite (bool_decide_eq_true_2 (_ = 3)).
Qed.

Lemma X2_docstring_rules_witness :
  ∃ S' a a',
    update_game_state (BoolArray (board 3 3 [(0, 0); (1, 1); (2, 2)])) = Ok S' ∧
    alive (BoolArray (board 3 3 [(0, 0); (1, 1); (2, 2)])) 1 1 = Some a ∧
    alive S' 1 1 = Some a' ∧
    (a = true → spec_neighbor_count (BoolArray (board 3 3 [(0, 0); (1, 1); (2, 2)])) 3 3 1 1 < 2
       → a' = false) ∧
    (a = true → spec_neighbor_count (BoolArray (board 3 3 [(0, 0); (1, 1); (2, 2)])) 3 3 1 1 = 2
                ∨ spec_neighbor_count (BoolArray (board 3 3 [(0, 0); (1, 1); (2, 2)])) 3 3 1 1 = 3
       → a' = true) ∧
    (a = true → 3 < spec_neighbor_count (BoolArray (board 3 3 [(0, 0); (1, 1); (2, 2)])) 3 3 1 1
       → a' = false) ∧
    (a = false → spec_neighbor_count (BoolArray (board 3 3 [(0, 0); (1, 1); (2, 2)])) 3 3 1 1 = 3
       → a' = true).
Proof.
  apply (X2_docstring_rules 3 3); [|lia|lia].
  split_and!; [lia | lia | | done].
  split; [done|]. repeat constructor.
Defined.

(** ** Neighbourhoods *)

Lemma toroidal_neighbors_length w h x y : length (toroidal_neighbors w h x y) = 8.
Proof. by rewrite toroidal_neighbors_eq. Qed.

Lemma wrapped_coord_lt (k : nat) (d : Z) (n : nat) :
  0 < n → Z.to_nat ((Z.of_nat k + d) `mod` Z.of_nat n) < n.
Proof.
  intros Hn. pose proof (Z.mod_pos_bound (Z.of_nat k + d) (Z.of_nat n)). lia.
Qed.

Lemma toroidal_neighbors_in_range w h x y p :
  0 < w → 0 < h → p ∈ toroidal_neighbors w h x y → p.1 < w ∧ p.2 < h.
Proof.
  intros Hw Hh. rewrite toroidal_neighbors_eq.
  intros (d & -> & _)%list_elem_of_fmap. simpl.
  split; by apply wrapped_coord_lt.
Qed.

Lemma length_filter_ext_in {A} (P Q : A → Prop)
    `{!∀ x, Decision (P x), !∀ x, Decision (Q x)} (l : list A) :
  (∀ x, x ∈ l → P x ↔ Q x) → length (filter P l) = length (filter Q l).
Proof.
  induction l as [|x l IH]; intros Hext; [done|].
  rewrite !filter_cons.
  assert (Hx : P x ↔ Q x) by (apply Hext; left).
  assert (Hl : length (filter P l) = length (filter Q l)).
  { apply IH. intros z Hz. apply Hext. by right. }
  destruct (decide (P x)), (decide (Q x)); simpl; tauto || lia.
Qed.

Lemma length_filter_False {A} (l : list A) :
  length (filter (λ _, False) l) = 0.
Proof.
  induction l as [|x l IH]; [done|]. rewrite filter_cons. by case_decide.
Qed.

Lemma length_filter_True {A} (l : list A) :
  length (filter (λ _, True) l) = length l.
Proof.
  induction l as [|x l IH]; [done|].
  rewrite filter_cons. case_decide; [|tauto]. simpl. by rewrite IH.
Qed.

Lemma spec_neighbor_count_none w h S x y :
  (∀ p, p ∈ toroidal_neighbors w h x y → alive S p.1 p.2 ≠ Some true) →
  spec_neighbor_count S w h x y = 0.
Proof.
  intros H. unfold spec_neighbor_count.
  rewrite (length_filter_ext_in _ (λ _, False)).
  - apply length_filter_False.
  - intros p Hp. split; [by apply H | done].
Qed.

Lemma spec_neighbor_count_all w h S x y :
  (∀ p, p ∈ toroidal_neighbors w h x y → alive S p.1 p.2 = Some true) →
  spec_neighbor_count S w h x y = 8.
Proof.
  intros H. unfold spec_neighbor_count.
  rewrite (length_filter_ext_in _ (λ _, True)).
  - rewrite length_filter_True. apply toroidal_neighbors_length.
  - intros p Hp. split; [done | intros _; by apply H].
Qed.

(** X3. A grid with no live cell stays without live cells: on a valid
    state of any dimensions whose cells are all dead, every cell of the
    next state is dead. *)
Theorem X3_dead_grid_stays_dead w h S :
  valid_state w h S →
  (∀ x y, x < w → y < h → alive S x y = Some false) →
  ∃ S', update_game_state S = Ok S' ∧
        ∀ x y, x < w → y < h → alive S' x y = Some false.
Proof.
  intros HS Hdead. exists (next_array S).
  split; [by eapply update_game_state_closed, valid_state_shape|].
  intros x y Hx Hy.
  destruct (next_array_alive_spec w h S x y HS Hx Hy) as (a & Ha & ->).
  rewrite Hdead in Ha by done. injection Ha as <-.
  rewrite spec_neighbor_count_none; [done|].
  intros p Hp. destruct HS as (Hw & Hh & _).
  destruct (toroidal_neighbors_in_range w h x y p Hw Hh Hp) as [Hp1 Hp2].
  by rewrite Hdead.
Qed.

Lemma X3_dead_grid_stays_dead_witness :
  ∃ S', update_game_state (IntArray [[0; 0]; [0; 0]; [0; 0]]%Z) = Ok S' ∧
        ∀ x y, x < 3 → y < 2 → alive S' x y = Some false.
Proof.
  apply (X3_dead_grid_stays_dead 3 2).
  - split_and!; [lia | lia | |].
    + split; [done|]. repeat constructor.
    + simpl. repeat first [apply Forall_nil_2 | apply Forall_cons_2 | lia].
  - intros x y Hx Hy.
    destruct x as [|[|[|x]]]; [| | |lia];
      (destruct y as [|[|y]]; [reflexivity | reflexivity | lia]).
Defined.

(** X4. A grid that is all alive is all dead after one step, whatever
    its dimensions: every cell counts eight live neighbours, on small grids
    through the wrap-around. *)
Theorem X4_full_grid_dies w h S :
  valid_state w h S →
  (∀ x y, x < w → y < h → alive S x y = Some true) →
  ∃ S', update_game_state S = Ok S' ∧
        ∀ x y, x < w → y < h → alive S' x y = Some false.
Proof.
  intros HS Hfull. exists (next_array S).
  split; [by eapply update_game_state_closed, valid_state_shape|].
  intros x y Hx Hy.
  destruct (next_array_alive_spec w h S x y HS Hx Hy) as (a & Ha & ->).
  rewrite spec_neighbor_count_all; [by destruct a|].
  intros p Hp. destruct HS as (Hw & Hh & _).
  destruct (toroidal_neighbors_in_range w h x y p Hw Hh Hp) as [Hp1 Hp2].
  by apply Hfull.
Qed.

Lemma X4_full_grid_dies_witness :
  ∃ S', update_game_state (BoolArray [[true; true]; [true; true]; [true; true]]) = Ok S' ∧
        ∀ x y, x < 3 → y < 2 → alive S' x y = Some false.
Proof.
  apply (X4_full_grid_dies 3 2).
  - split_and!; [lia | lia | | done].
    split; [done|]. repeat constructor.
  - intros x y Hx Hy.
    destruct x as [|[|[|x]]]; [| | |lia];
      (destruct y as [|[|y]]; [reflexivity | reflexivity | lia]).
Defined.

(** X5. The next state of a cell depends only on the cell and its eight
    wrapped neighbours: two valid states of the same dimensions (of either
    dtype) that agree there have the same next cell. *)
Theorem X5_step_is_local w h S T x y :
  valid_state w h S → valid_state w h T → x < w → y < h →
  alive S x y = alive T x y →
  (∀ p, p ∈ toroidal_neighbors w h x y → alive S p.1 p.2 = alive T p.1 p.2) →
  ∃ S' T', update_game_state S = Ok S' ∧ update_game_state T = Ok T' ∧
           alive S' x y = alive T' x y.
Proof.
  intros HS HT Hx Hy Hcell Hnb. exists (next_array S), (next_array T).
  split_and!; [by eapply update_game_state_closed, valid_state_shape..|].
  destruct (next_array_alive_spec w h S x y HS Hx Hy) as (a & Ha & ->).
  destruct (next_array_alive_spec w h T x y HT Hx Hy) as (b & Hb & ->).
  assert (a = b) as <- by congruence.
  assert (spec_neighbor_count S w h x y = spec_neighbor_count T w h x y) as ->; [|done].
  unfold spec_neighbor_count. apply length_filter_ext_in.
  intros p Hp. by rewrite Hnb.
Qed.

Lemma X5_step_is_local_witness :
  ∃ S' T',
    update_game_state (BoolArray [[true; false; true; false]]) = Ok S' ∧
    update_game_state (IntArray [[1; 0; 1; 0]]%Z) = Ok T' ∧
    alive S' 0 1 = alive T' 0 1.
Proof.
  apply (X5_step_is_local 1 4); [| |lia|lia|reflexivity|].
  - split_and!; [lia | lia | | done]. split; [done|]. repeat constructor.
  - split_and!; [lia | lia | |].
    + split; [done|]. repeat constructor.
    + simpl. repeat first [apply Forall_nil_2 | apply Forall_cons_2 | lia].
  - intros p Hp. rewrite toroidal_neighbors_eq in Hp.
    vm_compute in Hp. set_unfold in Hp.
    destruct Hp as [-> | [-> | [-> | [-> | [-> | [-> | [-> | [-> | []]]]]]]]];
      reflexivity.
Defined.

(** ** Translations of the torus *)

Lemma table_ext {A} w h (a b : list (list A)) :
  rect w h a → rect w h b →
  (∀ x y, x < w → y < h → at2 a x y = at2 b x y) → a = b.
Proof.
  intros [Hwa Hha] [Hwb Hhb] Hext. apply list_eq. intros x.
  destruct (decide (x < w)) as [Hx|Hx].
  - destruct (lookup_lt_is_Some_2 a x) as [ra Hra]; [lia|].
    destruct (lookup_lt_is_Some_2 b x) as [rb Hrb]; [lia|].
    rewrite Hra, Hrb. f_equal.
    pose proof (Forall_lookup_1 _ _ _ _ Hha Hra) as Hla.
    pose proof (Forall_lookup_1 _ _ _ _ Hhb Hrb) as Hlb.
    cbv beta in Hla, Hlb. apply list_eq. intros y. destruct (decide (y < h)) as [Hy|Hy].
    + specialize (Hext x y Hx Hy). unfold at2 in Hext.
      by rewrite Hra, Hrb in Hext.
    + rewrite !lookup_ge_None_2 by lia. done.
  - rewrite !lookup_ge_None_2 by lia. done.
Qed.

Lemma array_ext w h (a b : ndarray) :
  has_shape a w h → has_shape b w h →
  is_bool_array a = is_bool_array b →
  (∀ x y, x < w → y < h → cell a x y = cell b x y) → a = b.
Proof.
  intros Ha Hb Hdt Hext. unfold cell in Hext.
  destruct a as [r|r], b as [t|t]; try done; f_equal;
    apply (table_ext w h); try done.
  intros x y Hx Hy. specialize (Hext x y Hx Hy).
  unfold as_int in Hext. rewrite !at2_map in Hext.
  destruct (at2 r x y) as [[]|], (at2 t x y) as [[]|]; by simplify_eq/=.
Qed.

Lemma wrapped_twice (x : nat) (i k : Z) (n : nat) :
  0 < n →
  Z.to_nat ((Z.of_nat (Z.to_nat ((Z.of_nat x - k) `mod` Z.of_nat n)) - i)
            `mod` Z.of_nat n)
  = Z.to_nat ((Z.of_nat (Z.to_nat ((Z.of_nat x - i) `mod` Z.of_nat n)) - k)
              `mod` Z.of_nat n).
Proof.
  intros Hn.
  pose proof (Z.mod_pos_bound (Z.of_nat x - k) (Z.of_nat n)).
  pose proof (Z.mod_pos_bound (Z.of_nat x - i) (Z.of_nat n)).
  rewrite !Z2Nat.id by lia. rewrite !Zminus_mod_idemp_l.
  f_equal. f_equal. lia.
Qed.

Lemma shifted_cell_roll2 S w h ij kl x y :
  has_shape S w h → x < w → y < h →
  shifted_cell (roll2_array S ij) w h x y kl
  = shifted_cell S w h (Z.to_nat ((Z.of_nat x - ij.1) `mod` Z.of_nat w))
                       (Z.to_nat ((Z.of_nat y - ij.2) `mod` Z.of_nat h)) kl.
Proof.
  intros HS Hx Hy. unfold shifted_cell at 1.
  rewrite (cell_roll2 S w h) by (done || apply wrapped_index_lt; lia).
  unfold shifted_cell. simpl.
  by rewrite (wrapped_twice x ij.1 kl.1 w), (wrapped_twice y ij.2 kl.2 h) by lia.
Qed.

(** X6. The rule commutes with the translations of the torus: rolling a
    valid state by any shift [(i, j)] and then stepping gives the same
    array as stepping and then rolling. *)
Theorem X6_step_commutes_with_roll w h S ij :
  valid_state w h S →
  ∃ R S' R',
    rolled S ij = Ok R ∧ update_game_state R = Ok R' ∧
    update_game_state S = Ok S' ∧ rolled S' ij = Ok R'.
Proof.
  intros HS.
  pose proof (valid_state_shape _ _ _ HS) as Hshape.
  pose proof (valid_state_binary _ _ _ HS) as Hb.
  pose proof (has_shape_roll2 S w h ij Hshape) as HR.
  exists (roll2_array S ij), (next_array S), (next_array (roll2_array S ij)).
  split_and!; [apply rolled_eq | by eapply update_game_state_closed
              | by eapply update_game_state_closed |].
  rewrite rolled_eq. f_equal.
  apply (array_ext w h);
    [by apply has_shape_roll2, has_shape_next_array
    | by apply has_shape_next_array
    | by rewrite is_bool_roll2, !is_bool_next_array, is_bool_roll2 |].
  intros x y Hx Hy.
  rewrite (cell_roll2 _ w h) by (done || by apply has_shape_next_array).
  unfold shifted_cell at 1.
  rewrite !next_array_cell.
  rewrite (cell_roll2 S w h) by done.
  rewrite (count_table_at _ w h HR (binary_roll2 S ij Hb)) by done.
  rewrite (count_table_at S w h Hshape Hb) by (apply wrapped_index_lt; lia).
  destruct (at2_is_Some w h (as_int S)
              (Z.to_nat ((Z.of_nat x - ij.1) `mod` Z.of_nat w))
              (Z.to_nat ((Z.of_nat y - ij.2) `mod` Z.of_nat h)))
    as [s Hs]; [by apply has_shape_as_int | apply wrapped_index_lt; lia
               | apply wrapped_index_lt; lia |].
  assert (Zsum (map (shifted_cell (roll2_array S ij) w h x y) offsets)
          = Zsum (map (shifted_cell S w h
                         (Z.to_nat ((Z.of_nat x - ij.1) `mod` Z.of_nat w))
                         (Z.to_nat ((Z.of_nat y - ij.2) `mod` Z.of_nat h))) offsets))
    as ->.
  { f_equal. apply map_ext. intros kl. by apply shifted_cell_roll2. }
  generalize (Zsum (map (shifted_cell S w h
                      (Z.to_nat ((Z.of_nat x - ij.1) `mod` Z.of_nat w))
                      (Z.to_nat ((Z.of_nat y - ij.2) `mod` Z.of_nat h))) offsets)).
  intros c. unfold shifted_cell, cell. by rewrite Hs.
Qed.

Lemma X6_step_commutes_with_roll_witness :
  ∃ R S' R',
    rolled (BoolArray (board 4 3 [(0, 0); (1, 0); (1, 1); (3, 2)])) (3, -5)%Z = Ok R ∧
    update_game_state R = Ok R' ∧
    update_game_state (BoolArray (board 4 3 [(0, 0); (1, 0); (1, 1); (3, 2)])) = Ok S' ∧
    rolled S' (3, -5)%Z = Ok R'.
Proof.
  apply (X6_step_commutes_with_roll 4 3).
  split_and!; [lia | lia | | done].
  split; [done|]. repeat constructor.
Defined.

(** ** The frames of the generator *)

Section more_frames.
Import Store.
Implicit Types (σ : gmap loc ndarray) (l : loc).

Lemma update_valid_state w h S S' :
  valid_state w h S → update_game_state S = Ok S' → valid_state w h S'.
Proof.
  intros (Hw & Hh & HS & _) Hupd.
  rewrite (update_game_state_closed S w h HS) in Hupd. injection Hupd as <-.
  split_and!; [done | done | by apply has_shape_next_array
              | apply binary_next_array].
Qed.

Lemma chain_valid w h σ frames : ∀ l S,
  chain σ l frames → σ !! l = Some S → valid_state w h S →
  Forall (λ f, ∃ v, σ !! f = Some v ∧ valid_state w h v) frames.
Proof.
  induction frames as [|f frames IH]; intros l S Hch Hl HS; [constructor|].
  destruct Hch as [(Sp & Sf & Hp & Hf & Hupd) Hrest].
  assert (Sp = S) as -> by congruence.
  pose proof (update_valid_state w h S Sf HS Hupd) as HSf.
  constructor; [by exists Sf|]. by eapply IH.
Qed.

Lemma take_frames_valid w h σ l S0 n :
  σ !! l = Some S0 → valid_state w h S0 →
  ∃ frames σ',
    take_frames n (generate_frames l) σ = Ok (frames, σ') ∧
    length frames = n ∧
    Forall (λ f, ∃ v, σ' !! f = Some v ∧ valid_state w h v) frames.
Proof.
  intros Hl HS. destruct n as [|n].
  - exists [], σ. by split_and!.
  - destruct (take_frames_at_yield w h n σ l S0 Hl (valid_state_shape _ _ _ HS))
      as (frames & σ' & Hrun & Hsub & Hlen & Hch).
    assert (Hl' : σ' !! l = Some S0) by store_mono.
    exists (l :: frames), σ'. split_and!.
    + eapply take_frames_cons; [apply next_created | exact Hrun].
    + by rewrite length_cons, Hlen.
    + constructor; [by exists S0|]. by eapply chain_valid.
Qed.

(** X7. Pulling any number of frames from the generator of a valid state
    never raises, and every frame pulled holds a valid state of the same
    dimensions. *)
Theorem X7_frames_are_valid_states w h σ l S0 n :
  σ !! l = Some S0 → valid_state w h S0 →
  ∃ frames σ',
    take_frames n (generate_frames l) σ = Ok (frames, σ') ∧
    length frames = n ∧
    Forall (λ f, ∃ v, σ' !! f = Some v ∧ valid_state w h v) frames.
Proof.
  intros Hl HS.
  destruct (take_frames_valid w h σ l S0 n Hl HS) as (frames & σ' & Hrun & Hlen & Hall).
  exists frames, σ'. split_and!; [exact Hrun | exact Hlen | exact Hall].
Qed.

Lemma X7_frames_are_valid_states_witness :
  ∃ frames σ',
    take_frames 4 (generate_frames 0) {[ 0 := IntArray [[1; 0]; [1; 1]]%Z ]}
    = Ok (frames, σ') ∧
    length frames = 4 ∧
    Forall (λ f, ∃ v, σ' !! f = Some v ∧ valid_state 2 2 v) frames.
Proof.
  apply (X7_frames_are_valid_states 2 2 _ _ (IntArray [[1; 0]; [1; 1]]%Z)).
  - apply lookup_singleton_eq.
  - split_and!; [lia | lia | |].
    + split; [done|]. repeat constructor.
    + simpl. repeat first [apply Forall_nil_2 | apply Forall_cons_2 | lia].
Defined.

Lemma take_frames_fresh w h n : ∀ σ l S,
  σ !! l = Some S → has_shape S w h →
  ∃ frames σ',
    take_frames n (Generator AtYield l) σ = Ok (frames, σ') ∧
    σ ⊆ σ' ∧ Forall (λ f, σ !! f = None) frames ∧ NoDup frames.
Proof.
  induction n as [|n IH]; intros σ l S Hl HS.
  - exists [], σ. split_and!; [done | done | constructor | constructor].
  - destruct (update_game_state_obj_new σ l S (next_array S) Hl)
      as (l1 & σ1 & Hrun1 & Hsub1 & Hnew1 & Hl1);
      [by eapply update_game_state_closed|].
    destruct (IH σ1 l1 (next_array S) Hl1)
      as (frames & σ2 & Hrun2 & Hsub2 & Hfresh & Hnd);
      [by apply has_shape_next_array|].
    exists (l1 :: frames), σ2. split_and!.
    + eapply take_frames_cons; [by apply next_at_yield | done].
    + store_mono.
    + constructor; [done|].
      eapply Forall_impl; [exact Hfresh|]. intros f Hf. simpl in *. store_mono.
    + apply NoDup_cons. split; [|done].
      intros Hin. rewrite Forall_forall in Hfresh.
      specialize (Hfresh l1 Hin). simpl in Hfresh. congruence.
Qed.

(** X8. The generator never yields the same array object twice and
    never changes an object: the frames are pairwise distinct references,
    every frame after the first is an object that did not exist before, and
    every object of the store holds afterwards what it held before. *)
Theorem X8_frames_are_new_objects w h σ l S0 n :
  σ !! l = Some S0 → has_shape S0 w h →
  ∃ frames σ',
    take_frames n (generate_frames l) σ = Ok (frames, σ') ∧
    NoDup frames ∧
    (∀ f, f ∈ frames → f = l ∨ σ !! f = None) ∧
    (∀ k a, σ !! k = Some a → σ' !! k = Some a).
Proof.
  intros Hl HS. destruct n as [|n].
  - exists [], σ. split_and!; [done | constructor | | done].
    intros f Hf. by apply elem_of_nil in Hf.
  - destruct (take_frames_fresh w h n σ l S0 Hl HS)
      as (frames & σ' & Hrun & Hsub & Hfresh & Hnd).
    rewrite Forall_forall in Hfresh.
    exists (l :: frames), σ'. split_and!.
    + eapply take_frames_cons; [apply next_created | exact Hrun].
    + apply NoDup_cons. split; [|done].
      intros Hin. specialize (Hfresh l Hin). simpl in Hfresh. congruence.
    + intros f [-> | Hf]%elem_of_cons; [by left|]. right. by apply Hfresh.
    + intros k a Hk. store_mono.
Qed.

Lemma X8_frames_are_new_objects_witness :
  ∃ frames σ',
    take_frames 3 (generate_frames 0) {[ 0 := BoolArray [[true; false]] ]}
    = Ok (frames, σ') ∧
    NoDup frames ∧
    (∀ f, f ∈ frames
          → f = 0 ∨ ({[ 0 := BoolArray [[true; false]] ]} : gmap loc ndarray) !! f = None) ∧
    (∀ k a, ({[ 0 := BoolArray [[true; false]] ]} : gmap loc ndarray) !! k = Some a
            → σ' !! k = Some a).
Proof.
  apply (X8_frames_are_new_objects 1 2 _ _ (BoolArray [[true; false]])).
  - apply lookup_singleton_eq.
  - split; [done|]. repeat constructor.
Defined.

Lemma initialize_game_valid too_large (width height : Z) draw :
  (0 < width)%Z → (0 < height)%Z → too_large width height = None →
  ∃ g, initialize_game too_large width height draw = Ok g ∧
       valid_state (Z.to_nat width) (Z.to_nat height) g.
Proof.
  intros Hw Hh Hroom. unfold initialize_game, np_random_choice.
  rewrite Hroom, decide_False by lia. eexists. split; [done|].
  split_and!; [lia | lia | |].
  - apply (rect_tabulate (λ x y, if draw x y then 1%Z else 0%Z)).
  - apply binary_tabulate.
Qed.

(** X9. The engine as [main] uses it: for a positive width and height
    of which numpy can make an array, and for any draws, [initialize_game]
    returns a valid state of these dimensions, and the generator started
    on it yields any number of frames without raising, each a valid state
    of these dimensions. *)
Theorem X9_initial_grid_runs too_large (width height : Z) draw σ n :
  (0 < width)%Z → (0 < height)%Z → too_large width height = None →
  ∃ g game_state σ1 frames σ',
    initialize_game too_large width height draw = Ok g ∧
    valid_state (Z.to_nat width) (Z.to_nat height) g ∧
    alloc g σ = Ok (game_state, σ1) ∧
    take_frames n (generate_frames game_state) σ1 = Ok (frames, σ') ∧
    length frames = n ∧
    Forall (λ f, ∃ v, σ' !! f = Some v
                      ∧ valid_state (Z.to_nat width) (Z.to_nat height) v) frames.
Proof.
  intros Hw Hh Hroom.
  destruct (initialize_game_valid too_large width height draw Hw Hh Hroom)
    as (g & Hinit & Hvalid).
  destruct (alloc_new g σ) as (l & Halloc & _ & _).
  destruct (take_frames_valid (Z.to_nat width) (Z.to_nat height)
              (<[l := g]> σ) l g n) as (frames & σ' & Hrun & Hlen & Hall);
    [apply lookup_insert_eq | done |].
  by exists g, l, (<[l := g]> σ), frames, σ'.
Qed.

Lemma X9_initial_grid_runs_witness :
  ∃ g game_state σ1 frames σ',
    initialize_game (λ w h, if decide (w * h ≤ 1000)%Z then None else Some MemoryError)
      3 2 (λ x y, bool_decide (x = y)) = Ok g ∧
    valid_state 3 2 g ∧
    alloc g ∅ = Ok (game_state, σ1) ∧
    take_frames 5 (generate_frames game_state) σ1 = Ok (frames, σ') ∧
    length frames = 5 ∧
    Forall (λ f, ∃ v, σ' !! f = Some v ∧ valid_state 3 2 v) frames.
Proof.
  apply (X9_initial_grid_runs
           (λ w h, if decide (w * h ≤ 1000)%Z then None else Some MemoryError)
           3 2 (λ x y, bool_decide (x = y)) ∅ 5); [lia | lia | reflexivity].
Defined.
End more_frames.

(** ** What the renderer reads *)

Lemma bind_singleton_fmap {A B} (f : A → B) (l : list A) :
  l ≫= (λ x, [f x]) = f <$> l.
Proof.
  induction l as [|x l IH]; [done|].
  by rewrite bind_cons, fmap_cons, IH.
Qed.

Lemma concat_tabulate {A} (F : nat → nat → A) (xs : list nat) (h : nat) :
  concat ((λ x, F x <$> seq 0 h) <$> xs)
  = (λ p, F p.1 p.2) <$> (xs ≫= λ x, seq 0 h ≫= λ y, [(x, y)]).
Proof.
  induction xs as [|x xs IH]; [done|].
  rewrite fmap_cons, concat_cons, bind_cons, fmap_app, IH. f_equal.
  rewrite (bind_singleton_fmap (pair x)), <- list_fmap_compose. done.
Qed.

Lemma at2_tabulate {A} (F : nat → nat → A) w h x y :
  x < w → y < h →
  at2 ((λ x, F x <$> seq 0 h) <$> seq 0 w) x y = Some (F x y).
Proof.
  intros Hx Hy. unfold at2.
  rewrite list_lookup_fmap, lookup_seq_lt by done. simpl.
  by rewrite list_lookup_fmap, lookup_seq_lt.
Qed.

(** The cells of a table in row-major order, by coordinates. *)
Lemma flatten_coords {A} (d : A) w h (t : list (list A)) :
  rect w h t →
  flatten t = (λ p, default d (at2 t p.1 p.2)) <$> coords w h.
Proof.
  intros Ht. unfold flatten, coords.
  rewrite <- (concat_tabulate (λ x y, default d (at2 t x y))). f_equal.
  apply (table_ext w h); [done | |].
  - apply (rect_tabulate (λ x y, default d (at2 t x y))).
  - intros x y Hx Hy. rewrite at2_tabulate by done.
    by destruct (at2_is_Some w h t x y Ht Hx Hy) as [c ->].
Qed.

Lemma zip_fmap_same {A B C} (f : A → B) (g : A → C) (l : list A) :
  zip (f <$> l) (g <$> l) = (λ x, (f x, g x)) <$> l.
Proof.
  induction l as [|x l IH]; [done|].
  rewrite !fmap_cons. cbn [zip_with]. by rewrite IH.
Qed.

Lemma filter_fmap_comm {A B} (P : B → Prop) `{!∀ x, Decision (P x)}
    (f : A → B) (l : list A) :
  filter P (f <$> l) = f <$> filter (λ x, P (f x)) l.
Proof.
  induction l as [|x l IH]; [done|].
  rewrite fmap_cons, !filter_cons, IH. by destruct (decide (P (f x))).
Qed.

Lemma filter_ext_all {A} (P Q : A → Prop)
    `{!∀ x, Decision (P x), !∀ x, Decision (Q x)} (l : list A) :
  (∀ x, P x ↔ Q x) → filter P l = filter Q l.
Proof.
  intros Hext. induction l as [|x l IH]; [done|].
  rewrite !filter_cons, IH.
  destruct (decide (P x)), (decide (Q x)); try done; by exfalso; apply Hext in p || apply Hext in q.
Qed.

Lemma alive_nonzero S x y :
  alive S x y = Some true ↔ default 0%Z (cell S x y) ≠ 0%Z.
Proof.
  unfold alive. destruct (cell S x y) as [c|]; simpl; [|by split].
  split.
  - intros [= H]. by apply bool_decide_eq_true_1 in H.
  - intros H. f_equal. by apply bool_decide_eq_true_2.
Qed.

Lemma coords_shape S w h :
  has_shape S w h → coords (shape S).1 (shape S).2 = coords w h.
Proof.
  intros HS.
  assert (∀ A (rows : list (list A)), rect w h rows →
            coords (length rows) (from_option length 0 (head rows)) = coords w h)
    as Haux.
  { intros A rows [Hw Hh]. subst w. destruct rows as [|r rows]; [done|].
    apply Forall_cons in Hh as [Hr _]. simpl. by rewrite Hr. }
  destruct S as [rows|rows]; simpl in *; by apply Haux.
Qed.

Section colours.
Context {color : Type} (shade : Z → color).

Lemma get_updated_colors_closed S w h :
  has_shape S w h →
  get_updated_colors shade S
  = Returns ((λ p, shade (default 0%Z (at2 (count_table S) p.1 p.2)))
             <$> nonzero_coords S).
Proof.
  intros HS. unfold get_updated_colors.
  rewrite (neighbors_count_closed S w h HS). f_equal.
  change (as_int (IntArray (count_table S))) with (count_table S).
  rewrite (flatten_coords 0%Z w h (count_table S)) by by apply rect_count_table.
  rewrite (flatten_coords 0%Z w h (as_int S)) by by apply has_shape_as_int.
  rewrite <- list_fmap_compose, zip_fmap_same, filter_fmap_comm.
  rewrite <- list_fmap_compose. unfold nonzero_coords.
  rewrite (coords_shape S w h HS).
  rewrite (filter_ext_all (λ p, alive S p.1 p.2 = Some true)
             (λ p, default 0%Z (at2 (as_int S) p.1 p.2) ≠ 0%Z));
    [done|]. intros p. apply alive_nonzero.
Qed.

(** X10. [get_updated_colors] returns one colour for every live cell of
    the grid, in row-major order of the cells: the colour of the
    neighbour count computed for that cell.  It does not raise on a
    rectangular grid. *)
Theorem X10_colors_of_live_cells S w h :
  has_shape S w h →
  ∃ nc, neighbors_count S = Ok (SumArray nc) ∧
        get_updated_colors shade S
        = Returns ((λ p, shade (default 0%Z (cell nc p.1 p.2)))
                   <$> filter (λ p, alive S p.1 p.2 = Some true) (coords w h)).
Proof.
  intros HS. exists (IntArray (count_table S)).
  split; [by eapply neighbors_count_closed|].
  rewrite (get_updated_colors_closed S w h HS).
  unfold nonzero_coords. by rewrite (coords_shape S w h HS).
Qed.

(** X11. The three sequences that [update] hands to [ax.scatter] fit
    together: the index arrays of [np.where(frame)] and the colours have
    the same length, and the colour at each position is that of the
    neighbour count of the live cell whose coordinates stand at the same
    position; on a valid state this count is between 0 and 8. *)
Theorem X11_scatter_args_aligned S w h :
  valid_state w h S →
  ∃ nc xs ys cs,
    neighbors_count S = Ok (SumArray nc) ∧
    scatter_args shade S = Returns (xs, ys, cs) ∧
    length xs = length cs ∧ length ys = length cs ∧
    ∀ i x y, xs !! i = Some x → ys !! i = Some y →
      alive S x y = Some true ∧
      ∃ c, cell nc x y = Some c ∧ (0 ≤ c ≤ 8)%Z ∧ cs !! i = Some (shade c).
Proof.
  intros HS.
  pose proof (valid_state_shape _ _ _ HS) as Hshape.
  pose proof (valid_state_binary _ _ _ HS) as Hb.
  exists (IntArray (count_table S)), (nonzero_coords S).*1, (nonzero_coords S).*2,
    ((λ p, shade (default 0%Z (at2 (count_table S) p.1 p.2))) <$> nonzero_coords S).
  split_and!.
  - by eapply neighbors_count_closed.
  - unfold scatter_args. by rewrite (get_updated_colors_closed S w h Hshape).
  - by rewrite !length_fmap.
  - by rewrite !length_fmap.
  - intros i x y Hxs Hys.
    rewrite list_lookup_fmap in Hxs. rewrite list_lookup_fmap in Hys.
    destruct (nonzero_coords S !! i) as [[x' y']|] eqn:Hp; simplify_eq/=.
    assert (Hin : (x, y) ∈ nonzero_coords S) by by eapply list_elem_of_lookup_2.
    unfold nonzero_coords in Hin. rewrite (coords_shape S w h Hshape) in Hin.
    apply list_elem_of_filter in Hin as [Halive Hin]. simpl in Halive.
    split; [done|].
    assert (x < w ∧ y < h) as [Hx Hy].
    { unfold coords in Hin.
      apply list_elem_of_bind in Hin as (x0 & Hin & Hx0).
      apply list_elem_of_bind in Hin as (y0 & Hin & Hy0).
      apply list_elem_of_singleton in Hin. simplify_eq.
      apply elem_of_seq in Hx0. apply elem_of_seq in Hy0. lia. }
    destruct (at2_is_Some w h (count_table S) x y) as [c Hc];
      [by apply rect_count_table | done | done |].
    exists c. split; [done|].
    split; [by eapply (count_table_bounds S w h)|].
    rewrite list_lookup_fmap, Hp. simpl. by rewrite Hc.
Qed.

End colours.

Lemma X10_colors_of_live_cells_witness :
  ∃ nc, neighbors_count (BoolArray [[true; false]; [false; true]]) = Ok (SumArray nc) ∧
        get_updated_colors (λ c, c) (BoolArray [[true; false]; [false; true]])
        = Returns ((λ p, default 0%Z (cell nc p.1 p.2))
                   <$> filter (λ p, alive (BoolArray [[true; false]; [false; true]]) p.1 p.2
                                    = Some true) (coords 2 2)).
Proof.
  apply (X10_colors_of_live_cells (λ c, c) _ 2 2).
  split; [done|]. repeat constructor.
Defined.

Lemma X11_scatter_args_aligned_witness :
  ∃ nc xs ys cs,
    neighbors_count (BoolArray [[true; false]; [false; true]]) = Ok (SumArray nc) ∧
    scatter_args (λ c, c) (BoolArray [[true; false]; [false; true]])
    = Returns (xs, ys, cs) ∧
    length xs = length cs ∧ length ys = length cs ∧
    ∀ i x y, xs !! i = Some x → ys !! i = Some y →
      alive (BoolArray [[true; false]; [false; true]]) x y = Some true ∧
      ∃ c, cell nc x y = Some c ∧ (0 ≤ c ≤ 8)%Z ∧ cs !! i = Some c.
Proof.
  apply (X11_scatter_args_aligned (λ c, c) _ 2 2).
  split_and!; [lia | lia | | done].
  split; [done|]. repeat constructor.
Defined.

(** ** Counting every neighbour *)

Lemma Zsum_app (l k : list Z) : Zsum (l ++ k) = (Zsum l + Zsum k)%Z.
Proof. induction l as [|z l IH]; simpl; lia. Qed.

Lemma Zsum_Permutation (l k : list Z) : l ≡ₚ k → Zsum l = Zsum k.
Proof. induction 1; simpl; lia. Qed.

Lemma Zsum_fmap_add {A} (f g : A → Z) (l : list A) :
  Zsum ((λ p, f p + g p)%Z <$> l) = (Zsum (f <$> l) + Zsum (g <$> l))%Z.
Proof. induction l as [|x l IH]; [done|]. rewrite !fmap_cons. simpl. lia. Qed.

Lemma Zsum_fmap_zero {A} (l : list A) : Zsum ((λ _, 0%Z) <$> l) = 0%Z.
Proof. induction l as [|x l IH]; [done|]. rewrite fmap_cons. simpl. lia. Qed.

Lemma Zsum_swap {A B} (F : A → B → Z) (l : list A) (offs : list B) :
  Zsum ((λ p, Zsum ((F p) <$> offs)) <$> l)
  = Zsum ((λ ij, Zsum ((λ p, F p ij) <$> l)) <$> offs).
Proof.
  induction offs as [|ij offs IH].
  - simpl. apply Zsum_fmap_zero.
  - rewrite fmap_cons. simpl. rewrite <- IH.
    rewrite <- Zsum_fmap_add. done.
Qed.

Lemma roll_list_Permutation {A} shift (l : list A) : roll_list shift l ≡ₚ l.
Proof.
  unfold roll_list. case_decide; [done|].
  rewrite Permutation_app_comm. by rewrite take_drop.
Qed.

Lemma concat_fmap_Permutation {A} (f : list A → list A) (t : list (list A)) :
  (∀ r, f r ≡ₚ r) → concat (f <$> t) ≡ₚ concat t.
Proof.
  intros Hf. induction t as [|r t IH]; [done|].
  rewrite fmap_cons, !concat_cons. by rewrite Hf, IH.
Qed.

Lemma concat_Permutation {A} (t u : list (list A)) :
  t ≡ₚ u → concat t ≡ₚ concat u.
Proof.
  induction 1 as [|r t u _ IH|r r' t|t u v _ IH1 _ IH2]; simpl.
  - done.
  - by rewrite IH.
  - rewrite !(assoc_L (++)). by rewrite (Permutation_app_comm r r').
  - by etrans.
Qed.

Lemma flatten_roll2_Permutation {A} ij (rows : list (list A)) :
  flatten (roll2 ij rows) ≡ₚ flatten rows.
Proof.
  unfold flatten, roll2.
  etrans; [apply (concat_fmap_Permutation (roll_list ij.2)) |].
  - intros r. apply roll_list_Permutation.
  - apply concat_Permutation, roll_list_Permutation.
Qed.

Lemma flatten_fmap {A B} (f : A → B) (t : list (list A)) :
  flatten (map (map f) t) = f <$> flatten t.
Proof.
  unfold flatten. induction t as [|r t IH]; [done|].
  simpl. rewrite IH. by rewrite fmap_app.
Qed.

Lemma Zsum_flatten_roll2 S ij :
  Zsum (flatten (as_int (roll2_array S ij))) = Zsum (flatten (as_int S)).
Proof.
  apply Zsum_Permutation. destruct S as [rows|rows]; unfold roll2_array, as_int.
  - rewrite !flatten_fmap. by rewrite flatten_roll2_Permutation.
  - apply flatten_roll2_Permutation.
Qed.

Lemma coords_in_range w h p : p ∈ coords w h → p.1 < w ∧ p.2 < h.
Proof.
  unfold coords. intros Hin.
  apply list_elem_of_bind in Hin as (x0 & Hin & Hx0).
  apply list_elem_of_bind in Hin as (y0 & Hin & Hy0).
  apply list_elem_of_singleton in Hin. subst p. simpl.
  apply elem_of_seq in Hx0. apply elem_of_seq in Hy0. lia.
Qed.

Lemma population_Zsum w h S :
  has_shape S w h → binary S →
  Zsum (flatten (as_int S)) = Z.of_nat (length (nonzero_coords S)).
Proof.
  intros HS Hb. unfold nonzero_coords.
  rewrite (coords_shape S w h HS), length_filter_Zsum.
  rewrite (flatten_coords 0%Z w h) by by apply has_shape_as_int.
  f_equal. apply list_fmap_ext. intros _ p _.
  symmetry. by apply alive_indicator.
Qed.

(** X12. On a valid state the neighbour counts of all cells add up to
    eight times the number of live cells: every live cell is counted once
    through each of the eight shifts. *)
Theorem X12_counts_sum_to_eight_times_population w h S :
  valid_state w h S →
  ∃ nc, neighbors_count S = Ok (SumArray nc) ∧
        Zsum (flatten (as_int nc)) = (8 * Z.of_nat (length (nonzero_coords S)))%Z.
Proof.
  intros HS.
  pose proof (valid_state_shape _ _ _ HS) as Hshape.
  pose proof (valid_state_binary _ _ _ HS) as Hb.
  exists (IntArray (count_table S)).
  split; [by eapply neighbors_count_closed|].
  change (as_int (IntArray (count_table S))) with (count_table S).
  rewrite (flatten_coords 0%Z w h (count_table S)) by by apply rect_count_table.
  assert (Hcells :
    (λ p, default 0%Z (at2 (count_table S) p.1 p.2)) <$> coords w h
    = (λ p, Zsum ((λ ij, shifted_cell S w h p.1 p.2 ij) <$> offsets)) <$> coords w h).
  { apply list_fmap_ext. intros i p Hp.
    destruct (coords_in_range w h p) as [Hx Hy]; [by eapply list_elem_of_lookup_2|].
    by rewrite (count_table_at S w h Hshape Hb). }
  rewrite Hcells, (Zsum_swap (λ p ij, shifted_cell S w h p.1 p.2 ij)).
  assert (Hshift : ∀ ij,
    Zsum ((λ p, shifted_cell S w h p.1 p.2 ij) <$> coords w h)
    = Z.of_nat (length (nonzero_coords S))).
  { intros ij. rewrite <- (population_Zsum w h S Hshape Hb).
    rewrite <- (Zsum_flatten_roll2 S ij).
    rewrite (flatten_coords 0%Z w h (as_int (roll2_array S ij)))
      by by apply has_shape_as_int, has_shape_roll2.
    f_equal. apply list_fmap_ext. intros i p Hp.
    destruct (coords_in_range w h p) as [Hx Hy]; [by eapply list_elem_of_lookup_2|].
    pose proof (cell_roll2 S w h ij p.1 p.2 Hshape Hx Hy) as Hc.
    unfold cell in Hc. by rewrite Hc. }
  rewrite offsets_eq. rewrite !fmap_cons, fmap_nil. rewrite !Hshift.
  simpl. lia.
Qed.

Lemma X12_counts_sum_to_eight_times_population_witness :
  ∃ nc, neighbors_count (IntArray [[1; 0; 1]; [0; 0; 1]]%Z) = Ok (SumArray nc) ∧
        Zsum (flatten (as_int nc))
        = (8 * Z.of_nat (length (nonzero_coords (IntArray [[1; 0; 1]; [0; 0; 1]]%Z))))%Z.
Proof.
  apply (X12_counts_sum_to_eight_times_population 2 3).
  split_and!; [lia | lia | |].
  - split; [done|]. repeat constructor.
  - simpl. repeat first [apply Forall_nil_2 | apply Forall_cons_2 | lia].
Defined.

(** ** The two dtypes *)

(** X13. The int path and the bool path compute the same automaton: the
    step of the 0/1 int array of a bool grid is the 0/1 int array of the
    step of the bool grid. *)
Theorem X13_int_grid_steps_like_bool_grid w h rows :
  rect w h rows →
  ∃ B', update_game_state (BoolArray rows) = Ok B' ∧
        update_game_state (IntArray (as_int (BoolArray rows)))
        = Ok (IntArray (as_int B')).
Proof.
  intros Hrows.
  set (B := BoolArray rows). set (G := IntArray (as_int B)).
  assert (HB : has_shape B w h) by done.
  assert (HG : has_shape G w h) by by apply (rect_map Z.b2z).
  assert (HBb : binary B) by done.
  assert (HGb : binary G).
  { apply Forall_fmap, Forall_forall. intros r _. simpl.
    apply Forall_fmap, Forall_forall. intros [] _; simpl; auto. }
  exists (next_array B).
  split; [by eapply update_game_state_closed|].
  rewrite (update_game_state_closed G w h HG). f_equal.
  apply (array_ext w h);
    [by apply has_shape_next_array
    | by apply (has_shape_as_int (next_array B)), has_shape_next_array
    | done |].
  intros x y Hx Hy.
  change (cell (IntArray (as_int (next_array B))) x y)
    with (cell (next_array B) x y).
  rewrite !next_array_cell.
  rewrite (count_table_at G w h HG HGb) by done.
  by rewrite (count_table_at B w h HB HBb) by done.
Qed.

Lemma X13_int_grid_steps_like_bool_grid_witness :
  ∃ B', update_game_state (BoolArray [[true; false; true]; [false; true; true]]) = Ok B' ∧
        update_game_state
          (IntArray (as_int (BoolArray [[true; false; true]; [false; true; true]])))
        = Ok (IntArray (as_int B')).
Proof.
  apply (X13_int_grid_steps_like_bool_grid 2 3).
  split; [done|]. repeat constructor.
Defined.

(** ** Grids without cells *)

Section empty.
Context {color : Type} (shade : Z → color).

(** X14. A grid with a dimension of 0, which [initialize_game] accepts,
    is handled without raising: [update_game_state] returns an equal
    grid, [np.where] finds no coordinates and [get_updated_colors] returns
    no colour. *)
Theorem X14_empty_grid w h S :
  has_shape S w h → w = 0 ∨ h = 0 →
  update_game_state S = Ok S ∧
  np_where S = ([], []) ∧
  get_updated_colors shade S = Returns [].
Proof.
  intros HS Hempty.
  assert (Hcoords : coords w h = []).
  { unfold coords. destruct Hempty as [-> | ->]; [done|].
    induction (seq 0 w) as [|x l IH]; [done|]. by rewrite bind_cons, IH. }
  assert (Hnz : nonzero_coords S = []).
  { unfold nonzero_coords. by rewrite (coords_shape S w h HS), Hcoords. }
  split_and!.
  - rewrite (update_game_state_closed S w h HS). f_equal.
    apply (array_ext w h);
      [by apply has_shape_next_array | done | apply is_bool_next_array |].
    intros x y Hx Hy. lia.
  - unfold np_where. by rewrite Hnz.
  - rewrite (get_updated_colors_closed shade S w h HS). by rewrite Hnz.
Qed.
End empty.

Lemma X14_empty_grid_witness :
  update_game_state (IntArray [[]; []; []]) = Ok (IntArray [[]; []; []]) ∧
  np_where (IntArray [[]; []; []]) = ([], []) ∧
  get_updated_colors (λ c, c) (IntArray [[]; []; []]) = Returns [].
Proof.
  apply (X14_empty_grid (λ c, c) 3 0).
  - split; [done|]. repeat constructor.
  - by right.
Defined.
